(** * Measurement error mitigation: calibration matrix and count correction

    A shallow embedding of the numerical core of the notebook
    [content/ch-quantum-hardware/measurement-error-mitigation.ipynb].  Code
    cells are named by their execution count, [In [k]].

    - [In [6]], [In [7]], [In [8]]: the calibration matrix [M] and the count
      vectors (Python nested lists handed to NumPy), [np.dot],
      [scipy.linalg.inv] and the direct-inverse correction
      [np.dot(la.inv(M), Cnoisy)];
    - [In [13]], [In [15]], [In [17]]: the library calls
      [CompleteMeasFitter] (the calibration-matrix builder) and
      [meas_filter.apply] (the least-squares correction), whose code is not
      in the repository and which are modelled from the specification;
    - all code cells: the global names each statement reads and binds.

    NumPy's float64 numbers are idealised as exact rationals ([Qc], the
    canonical rationals, so that equality is Leibniz equality): the decimal
    literal [0.9808] is the rational 9808/10000.  Cell [In [6]] is also
    evaluated in binary64 arithmetic.  Python exceptions are the constructors
    of [exn]; a call that may raise returns a [result]. *)

From Stdlib Require Import ZArith QArith Qcanon Qround Qabs Qcabs Lqa Lia Floats.
From Stdlib Require Import List Bool Ascii String Permutation.
Import ListNotations.

Set Warnings "-register-all,-inexact-float".

(** ** Exceptions and results *)

Inductive exn : Type :=
| ValueError              (* numpy: shapes not aligned; scipy: expected square matrix *)
| LinAlgError             (* scipy.linalg.inv: singular matrix *)
| NameError (name : string)
| InvalidInput.           (* the calibration-matrix builder's contract *)

Inductive result (A : Type) : Type :=
| Ok (a : A)
| Raise (e : exn).

Arguments Ok {A} a.
Arguments Raise {A} e.

Definition bind {A B : Type} (r : result A) (k : A -> result B) : result B :=
  match r with
  | Ok a => k a
  | Raise e => Raise e
  end.

Notation "x <- r ;; k" := (bind r (fun x => k))
  (at level 61, r at next level, right associativity).

(** ** Numbers *)

Open Scope Qc_scope.

(* [Qcabs] comes with a bracket notation that would capture one-element
   lists. *)
Disable Notation "[ q ]" : Qc_scope.

(** A decimal literal with four digits after the point, [dec4 9808] for
    [0.9808]. *)
Definition dec4 (z : Z) : Qc := Q2Qc (z # 10000).

(** A Python [int] used as a float. *)
Definition Z2Qc (z : Z) : Qc := Q2Qc (inject_Z z).

Definition Qc_leb (x y : Qc) : bool := if Qclt_le_dec y x then false else true.
Definition Qc_ltb (x y : Qc) : bool := if Qclt_le_dec x y then true else false.

(** Python's [round] and [np.round]: to the nearest integer, a tie to the
    even neighbour. *)
Definition round_half_even (x : Qc) : Z :=
  let f := Qfloor x in
  let r := x - Z2Qc f in
  if Qc_ltb r (Q2Qc (1 # 2)) then f
  else if Qc_ltb (Q2Qc (1 # 2)) r then (f + 1)%Z
  else if Z.even f then f else (f + 1)%Z.

(** ** Vectors and matrices

    A matrix is a list of rows, as the nested list literal of the notebook. *)

Abbreviation vec := (list Qc) (only parsing).
Abbreviation matrix := (list (list Qc)) (only parsing).

Definition zeros (n : nat) : vec := repeat 0 n.

(** The [i]-th standard basis vector of length [n]. *)
Definition unit_vec (n i : nat) : vec :=
  map (fun j => if Nat.eqb j i then 1 else 0) (seq 0 n).

Definition identity (n : nat) : matrix := map (unit_vec n) (seq 0 n).

Fixpoint vdot (u v : vec) : Qc :=
  match u, v with
  | x :: u', y :: v' => x * y + vdot u' v'
  | _, _ => 0
  end.

Definition vsum (v : vec) : Qc := fold_right Qcplus 0 v.

Definition vscale (c : Qc) (v : vec) : vec := map (Qcmult c) v.

Fixpoint vadd (u v : vec) : vec :=
  match u, v with
  | x :: u', y :: v' => (x + y) :: vadd u' v'
  | _, _ => []
  end.

Fixpoint vsub (u v : vec) : vec :=
  match u, v with
  | x :: u', y :: v' => (x - y) :: vsub u' v'
  | _, _ => []
  end.

Definition matvec (A : matrix) (v : vec) : vec := map (fun row => vdot row v) A.

Definition col (j : nat) (A : matrix) : vec := map (fun row => nth j row 0) A.

Definition ncols (A : matrix) : nat := List.length (hd [] A).

Definition column (v : vec) : matrix := map (fun x => x :: nil) v.

Definition is_square (n : nat) (A : matrix) : Prop :=
  List.length A = n /\ Forall (fun row => List.length row = n) A.

Definition squareb (A : matrix) : bool :=
  forallb (fun row => Nat.eqb (List.length row) (List.length A)) A.

(** ** NumPy and SciPy *)

(** [np.dot(A, B)] on two-dimensional arguments: the matrix product, a
    [ValueError] when the row length of [A] is not the number of rows of
    [B]. *)
Definition np_dot (A B : matrix) : result matrix :=
  if forallb (fun row => Nat.eqb (List.length row) (List.length B)) A then
    Ok (map (fun row => map (fun j => vdot row (col j B)) (seq 0 (ncols B))) A)
  else Raise ValueError.

(** An augmented row [(a, b)] of the elimination: [a] is a row of the matrix
    being reduced, [b] the same row operations applied to the identity. *)
Abbreviation arow := (list Qc * list Qc)%type (only parsing).

Definition row_scale (c : Qc) (r : arow) : arow :=
  (vscale c (fst r), vscale c (snd r)).

(** [row_submul c p r] is [r - c * p]. *)
Definition row_submul (c : Qc) (p r : arow) : arow :=
  (vsub (fst r) (vscale c (fst p)), vsub (snd r) (vscale c (snd p))).

(** The first row whose entry in column [k] is not zero, and the other
    rows.  LAPACK takes the entry of largest magnitude, for numerical
    stability; in exact arithmetic every non-zero pivot leads to the same
    inverse. *)
Fixpoint pick_pivot (k : nat) (rows : list arow) : option (arow * list arow) :=
  match rows with
  | [] => None
  | r :: rows' =>
      if Qc_eq_dec (nth k (fst r) 0) 0 then
        match pick_pivot k rows' with
        | Some (p, rest) => Some (p, r :: rest)
        | None => None
        end
      else Some (r, rows')
  end.

(** The pivot row divided by its pivot. *)
Definition normalise_pivot (k : nat) (p : arow) : arow :=
  row_scale (/ nth k (fst p) 0) p.

(** Column [k] of row [r] cleared with the normalised pivot row [p]. *)
Definition eliminate (k : nat) (p r : arow) : arow :=
  row_submul (nth k (fst r) 0) p r.

(** Gauss-Jordan elimination on the augmented rows: [steps] columns remain,
    column [k] is next, [done] holds the pivot rows of columns [0..k-1] in
    order and [todo] the rows without a pivot yet. *)
Fixpoint gauss_jordan (steps k : nat) (done todo : list arow) : option (list arow) :=
  match steps with
  | O => Some done
  | S steps' =>
      match pick_pivot k todo with
      | None => None
      | Some (p, rest) =>
          let p' := normalise_pivot k p in
          gauss_jordan steps' (S k)
            (map (eliminate k p') done ++ [p']%list) (map (eliminate k p') rest)
      end
  end.

(** [scipy.linalg.inv(M)]: the inverse of a square matrix; a [ValueError]
    ("expected square matrix") when [M] is not a square two-dimensional
    array, as the empty list is not, and a [LinAlgError] ("singular matrix")
    when the elimination meets a column without a pivot. *)
Definition la_inv (M : matrix) : result matrix :=
  if negb (Nat.eqb (List.length M) 0) && squareb M then
    match gauss_jordan (List.length M) 0 [] (combine M (identity (List.length M))) with
    | Some rows => Ok (map snd rows)
    | None => Raise LinAlgError
    end
  else Raise ValueError.

(** ** The notebook's cells *)

(** Cells [In [6]] and [In [7]]: the calibration matrix. *)
Definition M : matrix :=
  [ [dec4 9808; dec4 107; dec4 95; dec4 1];
    [dec4 95; dec4 9788; dec4 1; dec4 107];
    [dec4 96; dec4 2; dec4 9814; dec4 87];
    [dec4 1; dec4 103; dec4 90; dec4 9805] ].

(** Cell [In [6]]. *)
Definition Cideal : matrix :=
  [ [Z2Qc 5000]; [Z2Qc 0]; [Z2Qc 0]; [Z2Qc 5000] ].

Definition Cnoisy : result matrix := np_dot M Cideal.

(** Cell [In [7]]. *)
Definition Minv : result matrix := la_inv M.

(** Cell [In [8]]: the direct-inverse correction, applied to any
    calibration matrix and column of noisy counts. *)
Definition count_corrector (M C : matrix) : result matrix :=
  Minv <- la_inv M ;;
  np_dot Minv C.

Definition Cmitigated : result matrix :=
  C <- Cnoisy ;;
  count_corrector M C.

(** The rounding of the mitigated counts that the text after cell [In [8]]
    asks for. *)
Definition round_counts (C : matrix) : list (list Z) :=
  map (map round_half_even) C.

(** Boolean equality of matrices, to decide closed equations by
    evaluation. *)
Definition vec_eqb (u v : vec) : bool :=
  Nat.eqb (List.length u) (List.length v) &&
  forallb (fun p => Qc_eq_bool (fst p) (snd p)) (combine u v).

Definition matrix_eqb (A B : matrix) : bool :=
  Nat.eqb (List.length A) (List.length B) &&
  forallb (fun p => vec_eqb (fst p) (snd p)) (combine A B).

Definition result_is (r : result matrix) (B : matrix) : bool :=
  match r with
  | Ok A => matrix_eqb A B
  | Raise _ => false
  end.

(** ** Cell [In [6]] in binary64

    The same product with the IEEE 754 double-precision operations, each row
    accumulated from left to right. *)
Definition fdot (r c : list float) : float :=
  fold_left (fun acc p => (acc + fst p * snd p)%float) (combine r c) 0%float.

Definition M_float64 : list (list float) :=
  [ [0.9808; 0.0107; 0.0095; 0.0001];
    [0.0095; 0.9788; 0.0001; 0.0107];
    [0.0096; 0.0002; 0.9814; 0.0087];
    [0.0001; 0.0103; 0.0090; 0.9805] ]%float.

Definition Cnoisy_float64 : list float :=
  map (fun row => fdot row [5000; 0; 0; 5000]%float) M_float64.

(** ** The calibration-matrix builder *)

(** A count distribution as the simulator returns it, a Python [dict] from
    outcome labels to counts, and its dense vector over a list of labels: a
    label absent from the dictionary counts zero. *)
Fixpoint get (d : list (string * Z)) (label : string) (default : Z) : Z :=
  match d with
  | [] => default
  | (l, c) :: d' => if String.eqb l label then c else get d' label default
  end.

Definition dense (labels : list string) (d : list (string * Z)) : list Z :=
  map (fun l => get d l 0%Z) labels.

(** The outcome labels of [q] bits in binary order: [00], [01], [10],
    [11] for two. *)
Fixpoint outcome_labels (q : nat) : list string :=
  match q with
  | O => [EmptyString]
  | S q' => map (String "0"%char) (outcome_labels q') ++
            map (String "1"%char) (outcome_labels q')
  end.

Definition shot_total (counts : list Z) : Z := fold_right Z.add 0%Z counts.

(** Modelled from the spec: the normalisation of one basis state's counts
    by its own shot total (section 4.1); the notebook has it only inside the
    library's [CompleteMeasFitter].  A shot total of zero is an
    [InvalidInput]. *)
Definition normalise (counts : list Z) : result vec :=
  let t := shot_total counts in
  if Z.eqb t 0 then Raise InvalidInput
  else Ok (map (fun c => Z2Qc c / Z2Qc t) counts).

(** Modelled from the spec: every supplied distribution is normalised, in
    order; the first shot total of zero raises. *)
Fixpoint normalise_all (cal : list (list Z)) : result (list (list Qc)) :=
  match cal with
  | [] => Ok []
  | counts :: cal' =>
      c <- normalise counts ;;
      cs <- normalise_all cal' ;;
      Ok (c :: cs)
  end.

(** Modelled from the spec: the [N] by [N] matrix whose column [j] is the
    [j]-th of [cols]. *)
Definition columns_to_matrix (N : nat) (cols : list (list Qc)) : matrix :=
  map (fun i => map (fun j => nth i (nth j cols []) 0) (seq 0 N)) (seq 0 N).

(** Modelled from the spec: the Calibration-Matrix Builder (section 4.1),
    which the notebook calls as the library's [CompleteMeasFitter] and whose
    code is not in the repository.  [cal] holds, for the basis states
    [0..2^q-1] in order, the dense count vector measured after preparing that
    state.  Fewer than [2^q] distributions, or a distribution with a shot
    total of zero, is an [InvalidInput]; otherwise column [j] of the result
    is the [j]-th distribution divided by its own shot total. *)
Definition build_calibration_matrix (q : nat) (cal : list (list Z)) : result matrix :=
  if Nat.ltb (List.length cal) (2 ^ q) then Raise InvalidInput
  else
    cols <- normalise_all cal ;;
    Ok (columns_to_matrix (2 ^ q) cols).

(** A valid calibration input for [q] qubits: [2^q] dense vectors of [2^q]
    non-negative counts. *)
Definition valid_calibration (q : nat) (cal : list (list Z)) : Prop :=
  List.length cal = (2 ^ q)%nat /\
  Forall (fun counts => List.length counts = (2 ^ q)%nat /\
                        Forall (fun c => (0 <= c)%Z) counts) cal.

(** The counts of the identity noise process: all [shots] of basis state
    [j] land on outcome [j]. *)
Definition identity_counts (N : nat) (shots : Z) : list (list Z) :=
  map (fun j => map (fun i => if Nat.eqb i j then shots else 0%Z) (seq 0 N)) (seq 0 N).

(** The calibration data recorded in the notebook, before cell [In [6]]. *)
Definition notebook_calibration : list (list (string * Z)) :=
  [ [("10", 96); ("11", 1); ("01", 95); ("00", 9808)];
    [("10", 2); ("11", 103); ("01", 9788); ("00", 107)];
    [("10", 9814); ("11", 90); ("01", 1); ("00", 95)];
    [("10", 87); ("11", 9805); ("01", 107); ("00", 1)] ]%string%Z.

(** The calibration matrices printed by cells [In [13]] and [In [15]]. *)
Definition cal_matrix_In13 : matrix :=
  [ [dec4 9780; dec4 96; dec4 110; dec4 3];
    [dec4 119; dec4 9815; dec4 1; dec4 101];
    [dec4 100; dec4 2; dec4 9790; dec4 91];
    [dec4 1; dec4 87; dec4 99; dec4 9805] ].

Definition cal_matrix_In15 : matrix :=
  [ [dec4 8055; dec4 938; dec4 882; dec4 109];
    [dec4 889; dec4 8077; dec4 104; dec4 911];
    [dec4 948; dec4 82; dec4 8102; dec4 902];
    [dec4 108; dec4 903; dec4 912; dec4 8078] ].

Definition entry (A : matrix) (i j : nat) : Qc := nth j (nth i A []) 0.

Definition column_stochastic (n : nat) (A : matrix) : Prop :=
  forall j, (j < n)%nat -> vsum (col j A) = 1.

(** ** The cells as a program over global names

    What a statement does to the global namespace: the names it reads, in
    evaluation order, and the names it binds.  A [Block] is a [for] or an
    [if]: its header is evaluated, the loop targets are bound and the body
    is entered once.  Reading the name of a function defined in the notebook
    stands for calling it, as every use in the notebook is a call, so the
    globals of its body are read too. *)
Inductive stmt : Type :=
| Import (names : list string)
| Def (name : string) (globals : list string)
| Assign (targets : list string) (reads : list string)
| Expr (reads : list string)
| Block (reads : list string) (targets : list string) (body : list stmt).

Record env : Type := {
  bound : list string;
  funs : list (string * list string)
}.

Definition is_bound (e : env) (x : string) : bool := existsb (String.eqb x) (bound e).

(** Binding a name again hides the function it may have named. *)
Definition bind_names (xs : list string) (e : env) : env :=
  {| bound := xs ++ bound e;
     funs := filter (fun p => negb (existsb (String.eqb (fst p)) xs)) (funs e) |}.

Definition define (f : string) (globals : list string) (e : env) : env :=
  {| bound := f :: bound e; funs := (f, globals) :: funs e |}.

Fixpoint body_of (fs : list (string * list string)) (f : string) : list string :=
  match fs with
  | [] => []
  | (g, globals) :: fs' => if String.eqb g f then globals else body_of fs' f
  end.

(** The first unbound name of [xs] raises [NameError]. *)
Fixpoint lookup_all (e : env) (xs : list string) : result unit :=
  match xs with
  | [] => Ok tt
  | x :: xs' => if is_bound e x then lookup_all e xs' else Raise (NameError x)
  end.

Fixpoint read_names (e : env) (xs : list string) : result unit :=
  match xs with
  | [] => Ok tt
  | x :: xs' =>
      if is_bound e x then
        bind (lookup_all e (body_of (funs e) x)) (fun _ => read_names e xs')
      else Raise (NameError x)
  end.

Fixpoint exec (s : stmt) (e : env) : result env :=
  match s with
  | Import names => Ok (bind_names names e)
  | Def f globals => Ok (define f globals e)
  | Assign targets reads => bind (read_names e reads) (fun _ => Ok (bind_names targets e))
  | Expr reads => bind (read_names e reads) (fun _ => Ok e)
  | Block reads targets body =>
      bind (read_names e reads) (fun _ =>
        (fix exec_body (b : list stmt) (e : env) : result env :=
           match b with
           | [] => Ok e
           | s' :: b' => e' <- exec s' e ;; exec_body b' e'
           end) body (bind_names targets e))
  end.

Fixpoint exec_cell (c : list stmt) (e : env) : result env :=
  match c with
  | [] => Ok e
  | s :: c' => e' <- exec s e ;; exec_cell c' e'
  end.

(** Running the code cells in order stops at the first cell that raises. *)
Inductive outcome : Type :=
| Finished (e : env)
| Stopped (cell : nat) (err : exn) (e : env).

Fixpoint run_cells (cells : list (nat * list stmt)) (e : env) : outcome :=
  match cells with
  | [] => Finished e
  | (k, c) :: cells' =>
      match exec_cell c e with
      | Ok e' => run_cells cells' e'
      | Raise err => Stopped k err e
      end
  end.

(** The names a statement may bind. *)
Fixpoint targets_of (s : stmt) : list string :=
  match s with
  | Import names => names
  | Def f _ => [f]
  | Assign targets _ => targets
  | Expr _ => []
  | Block _ targets body => targets ++ flat_map targets_of body
  end.

(** The names a statement reads before it binds anything: the right-hand
    side of an assignment, an expression, the header of a block. *)
Definition reads_of (s : stmt) : list string :=
  match s with
  | Import _ => []
  | Def _ _ => []
  | Assign _ reads => reads
  | Expr reads => reads
  | Block reads _ _ => reads
  end.

Open Scope string_scope.

(** The built-in names the cells use. *)
Definition builtins : env := {| bound := ["print"]; funs := [] |}.

(** The measurement of a two-qubit circuit, shared by [In [4]], [In [5]]
    and [In [16]]: [qc.measure(qc.qregs[0],qc.cregs[0])]. *)
Definition measure_qc : stmt := Expr ["qc"; "qc"; "qc"].

(** Cell [In [18]], the plot:
    [plot_histogram([noisy_counts, mitigated_counts], ...)]. *)
Definition plot_cell : list stmt :=
  [ Import ["plot_histogram"];
    Expr ["plot_histogram"; "noisy_counts"; "mitigated_counts"] ].

(** The code cells, numbered by their execution count [In [k]]; the last
    cell was not executed and is numbered 19. *)
Definition notebook : list (nat * list stmt) :=
  [ (1%nat, [Import ["QuantumCircuit"; "QuantumRegister"; "Aer"; "transpile"; "assemble"]]);
    (2%nat, [Import ["NoiseModel"];
         Import ["pauli_error"; "depolarizing_error"];
         Def "get_noise" ["pauli_error"; "NoiseModel"]]);
    (3%nat, [Assign ["noise_model"] ["get_noise"]]);
    (4%nat, [Assign ["qasm_sim"] ["Aer"];
         Block [] ["state"]
           [Assign ["qc"] ["QuantumCircuit"];
            Block ["state"] [] [Expr ["qc"]];
            Block ["state"] [] [Expr ["qc"]];
            measure_qc;
            Assign ["t_qc"] ["transpile"; "qc"; "qasm_sim"];
            Assign ["qobj"] ["assemble"; "t_qc"];
            Assign ["counts"] ["qasm_sim"; "qobj"; "noise_model"];
            Expr ["print"; "state"; "counts"]]]);
    (5%nat, [Assign ["qc"] ["QuantumCircuit"];
         Expr ["qc"]; Expr ["qc"]; measure_qc;
         Assign ["t_qc"] ["transpile"; "qc"; "qasm_sim"];
         Assign ["qobj"] ["assemble"; "t_qc"];
         Assign ["counts"] ["qasm_sim"; "qobj"; "noise_model"];
         Expr ["print"; "counts"]]);
    (6%nat, [Import ["np"];
         Assign ["M"] [];
         Assign ["Cideal"] [];
         Assign ["Cnoisy"] ["np"; "M"; "Cideal"];
         Expr ["print"; "Cnoisy"]]);
    (7%nat, [Import ["la"];
         Assign ["M"] [];
         Assign ["Minv"] ["la"; "M"];
         Expr ["print"; "Minv"]]);
    (8%nat, [Assign ["Cmitigated"] ["np"; "Minv"; "Cnoisy"];
         Expr ["print"; "Cmitigated"]]);
    (9%nat, [Import ["complete_meas_cal"; "CompleteMeasFitter"]]);
    (10%nat, [Assign ["qr"] ["QuantumRegister"];
          Assign ["meas_calibs"; "state_labels"] ["complete_meas_cal"; "qr"]]);
    (11%nat, [Block ["meas_calibs"] ["circuit"]
            [Expr ["print"; "circuit"]; Expr ["print"; "circuit"]; Expr ["print"]]]);
    (12%nat, [Assign ["t_qc"] ["transpile"; "meas_calibs"; "qasm_sim"];
          Assign ["qobj"] ["assemble"; "t_qc"];
          Assign ["cal_results"] ["qasm_sim"; "qobj"; "noise_model"]]);
    (13%nat, [Assign ["meas_fitter"] ["CompleteMeasFitter"; "cal_results"; "state_labels"];
          Expr ["print"; "meas_fitter"]]);
    (14%nat, [Assign ["noise_model"] ["get_noise"]]);
    (15%nat, [Assign ["t_qc"] ["transpile"; "meas_calibs"; "qasm_sim"];
          Assign ["qobj"] ["assemble"; "t_qc"];
          Assign ["cal_results"] ["qasm_sim"; "qobj"; "noise_model"];
          Assign ["meas_fitter"] ["CompleteMeasFitter"; "cal_results"; "state_labels"];
          Expr ["print"; "meas_fitter"]]);
    (16%nat, [Assign ["qc"] ["QuantumCircuit"];
          Expr ["qc"]; Expr ["qc"]; measure_qc;
          Assign ["t_qc"] ["transpile"; "qc"; "qasm_sim"];
          Assign ["qobj"] ["assemble"; "t_qc"];
          Assign ["results"] ["qasm_sim"; "qobj"; "noise_model"];
          Expr ["print"; "results"]]);
    (17%nat, [Assign ["meas_filter"] ["meas_fitter"];
          Assign ["mitigated_results"] ["meas_filter"; "results"];
          Assign ["mitigated_counts"] ["mitigated_results"]]);
    (18%nat, plot_cell);
    (19%nat, [Import ["qiskit"]; Expr ["qiskit"]]) ].

Close Scope string_scope.

(** Induction on statements that reaches the bodies of blocks. *)
Section StmtInd.
Variable P : stmt -> Prop.
Hypothesis P_import : forall names, P (Import names).
Hypothesis P_def : forall f globals, P (Def f globals).
Hypothesis P_assign : forall targets reads, P (Assign targets reads).
Hypothesis P_expr : forall reads, P (Expr reads).
Hypothesis P_block : forall reads targets body,
  Forall P body -> P (Block reads targets body).

Fixpoint stmt_nested_ind (s : stmt) : P s :=
  match s with
  | Import names => P_import names
  | Def f globals => P_def f globals
  | Assign targets reads => P_assign targets reads
  | Expr reads => P_expr reads
  | Block reads targets body =>
      P_block reads targets body
        ((fix all (b : list stmt) : Forall P b :=
            match b with
            | [] => Forall_nil P
            | s' :: b' => Forall_cons s' (stmt_nested_ind s') (all b')
            end) body)
  end.
End StmtInd.

(** ** The noise model of [In [2]] and the circuits of [In [4]]

    The simulator draws shots at random; what the cells fix is the
    distribution they are drawn from.  The notebook's reading of its noise
    model: the measurement reads the qubits without error, then every bit is
    flipped, independently, with probability [p]. *)
Inductive pauli : Type := PauliX | PauliI.

(** [get_noise(p)]: the error [pauli_error([('X',p), ('I', 1 - p)])] that
    the noise model attaches to every measurement. *)
Definition get_noise (p : Qc) : list (pauli * Qc) :=
  [(PauliX, p); (PauliI, 1 - p)].

(** The probability with which an error flips a measured qubit
    ([flipped = true]) or leaves it as it is. *)
Definition flip_prob (noise : list (pauli * Qc)) (flipped : bool) : Qc :=
  vsum (map snd (filter (fun t => match fst t with
                                  | PauliX => flipped
                                  | PauliI => negb flipped
                                  end) noise)).

(** The body of the loop of [In [4]] for one [state]: the qubits that get
    an [x] gate, in order, before both qubits are measured.  [state[i]]
    raises [IndexError] on a shorter string: no circuit. *)
Definition calibration_circuit (state : string) : option (list nat) :=
  match String.get 0 state, String.get 1 state with
  | Some c0, Some c1 =>
      Some ((if Ascii.eqb c0 "1" then [1%nat] else []) ++
            (if Ascii.eqb c1 "1" then [0%nat] else []))
  | _, _ => None
  end.

(** [qc.x(q)] on a register in a basis state. *)
Fixpoint apply_x (q : nat) (qubits : list bool) : list bool :=
  match qubits, q with
  | [], _ => []
  | b :: bs, O => negb b :: bs
  | b :: bs, S q' => b :: apply_x q' bs
  end.

(** [QuantumCircuit(2,2)] starts in [|00>]. *)
Definition run_x (gates : list nat) : list bool :=
  fold_left (fun qubits q => apply_x q qubits) gates [false; false].

(** The outcome that [get_counts] writes as [key]: classical bit 0, which
    [qc.measure(qc.qregs[0],qc.cregs[0])] fills from qubit 0, is the last
    character. *)
Definition key_bits (key : string) : option (list bool) :=
  match String.get 0 key, String.get 1 key with
  | Some c1, Some c0 => Some [Ascii.eqb c0 "1"; Ascii.eqb c1 "1"]
  | _, _ => None
  end.

(** The probability that the measurement of [qubits] returns [outcome]. *)
Fixpoint outcome_prob (noise : list (pauli * Qc)) (qubits outcome : list bool) : Qc :=
  match qubits, outcome with
  | q :: qubits', o :: outcome' =>
      flip_prob noise (xorb q o) * outcome_prob noise qubits' outcome'
  | _, _ => 1
  end.

Definition calibration_entry (noise : list (pauli * Qc)) (key state : string) : option Qc :=
  match key_bits key, calibration_circuit state with
  | Some outcome, Some gates => Some (outcome_prob noise (run_x gates) outcome)
  | _, _ => None
  end.

Fixpoint all_some {A : Type} (l : list (option A)) : option (list A) :=
  match l with
  | [] => Some []
  | Some a :: l' => option_map (cons a) (all_some l')
  | None :: _ => None
  end.

(** The calibration matrix that the loop of [In [4]] samples: column [j] is
    the distribution of the outcomes of the circuit for the [j]-th state of
    the loop, row [i] belongs to the [i]-th outcome label. *)
Definition expected_calibration (noise : list (pauli * Qc)) : option matrix :=
  all_some (map (fun key =>
    all_some (map (calibration_entry noise key) ["00"; "01"; "10"; "11"]%string))
    (outcome_labels 2)).

(** The matrix of two independent bit flips of probability [p]. *)
Definition bit_flip_matrix (p : Qc) : matrix :=
  [ [(1 - p) * (1 - p); p * (1 - p); p * (1 - p); p * p];
    [p * (1 - p); (1 - p) * (1 - p); p * p; p * (1 - p)];
    [p * (1 - p); p * p; (1 - p) * (1 - p); p * (1 - p)];
    [p * p; p * (1 - p); p * (1 - p); (1 - p) * (1 - p)] ].

(** ** The round trip and diagonal dominance *)

(** [C_noisy = round(M . x)], entry by entry. *)
Definition noisy_counts_of (A : matrix) (x : list Z) : list Z :=
  map round_half_even (matvec A (map Z2Qc x)).

(** The sum of [f 0 .. f (n-1)]. *)
Fixpoint sum_n (f : nat -> Qc) (n : nat) : Qc :=
  match n with
  | O => 0
  | S k => sum_n f k + f k
  end.

Abbreviation two := (1 + 1) (only parsing).

(** By how much the diagonal entry of row [i] exceeds the other entries of
    the row, in absolute value; the same for column [j]. *)
Definition row_margin (A : matrix) (i : nat) : Qc :=
  two * Qcabs (entry A i i) - vsum (map Qcabs (nth i A [])).

Definition col_margin (A : matrix) (j : nat) : Qc :=
  two * Qcabs (entry A j j) - vsum (map Qcabs (col j A)).

(** [A] is diagonally dominant with margin [g], by rows or by columns. *)
Definition dominant_by (g : Qc) (n : nat) (A : matrix) : Prop :=
  (forall i, (i < n)%nat -> g <= row_margin A i) \/
  (forall j, (j < n)%nat -> g <= col_margin A j).

(** The relative tolerance of the round trip for [S] shots. *)
Definition tolerance (n : nat) (g : Qc) (S : Z) : Qc :=
  Z2Qc (Z.of_nat n) / (two * g * Z2Qc S).

(** ** The least-squares path *)

(** Modelled from the spec: the objective [||A . x - c||^2] of the
    least-squares path (section 4.2). *)
Definition residual (A : matrix) (c x : vec) : Qc :=
  vdot (vsub (matvec A x) c) (vsub (matvec A x) c).

(** Modelled from the spec: the constraints of the least-squares path,
    [x >= 0] entry by entry and [sum(x) = total]. *)
Definition feasible (n : nat) (total : Qc) (x : vec) : Prop :=
  List.length x = n /\ Forall (fun v => 0 <= v) x /\ vsum x = total.

(** Modelled from the spec: the least-squares path of the Count Corrector
    (section 4.2), which the notebook calls as the library's
    [meas_filter.apply] and whose code is not in the repository.  The spec
    fixes the problem, not the algorithm: a result for the noisy counts [c]
    is any [x] that minimises [||A . x - c||^2] subject to [x >= 0] and
    [sum(x) = sum(c)]. *)
Definition least_squares_fit (A : matrix) (c x : vec) : Prop :=
  feasible (List.length c) (vsum c) x /\
  forall y, feasible (List.length c) (vsum c) y -> residual A c x <= residual A c y.

(** The face of the feasible set on which the entries outside [mask] are
    zero. *)
Definition in_face (n : nat) (total : Qc) (mask : nat -> bool) (x : vec) : Prop :=
  List.length x = n /\
  (forall j, (j < n)%nat -> 0 <= nth j x 0) /\
  vsum x = total /\
  (forall j, (j < n)%nat -> mask j = false -> nth j x 0 = 0).

Definition remove_index (j : nat) (mask : nat -> bool) : nat -> bool :=
  fun k => mask k && negb (Nat.eqb k j).

Definition count_mask (n : nat) (mask : nat -> bool) : nat :=
  List.length (filter mask (seq 0 n)).

(** The optimality conditions of the least-squares problem on a face, as a
    linear system in the point [x] and the multiplier of the sum
    constraint: for [j] in the mask, [<col_j A, A . x> + lambda = <col_j A, c>];
    for [j] outside, [x_j = 0]; and [sum(x) = total]. *)
Definition kkt_row (n : nat) (A : matrix) (mask : nat -> bool) (j : nat) : vec :=
  if mask j then map (fun k => vdot (col j A) (col k A)) (seq 0 n) ++ 1 :: nil
  else unit_vec n j ++ 0 :: nil.

Definition kkt_matrix (n : nat) (A : matrix) (mask : nat -> bool) : matrix :=
  map (kkt_row n A mask) (seq 0 n) ++ (repeat 1 n ++ 0 :: nil) :: nil.

Definition kkt_rhs (n : nat) (A : matrix) (c : vec) (total : Qc) (mask : nat -> bool) : vec :=
  map (fun j => if mask j then vdot (col j A) c else 0) (seq 0 n) ++ total :: nil.

(** A matrix whose two columns are equal. *)
Definition repeated_columns : matrix :=
  [ [Q2Qc (1 # 2); Q2Qc (1 # 2)]; [Q2Qc (1 # 2); Q2Qc (1 # 2)] ].

(** ** Invariants of the elimination

    For a matrix [A] of size [n], every augmented row [(a, b)] satisfies
    [a = b . A], read as an equation between linear forms. *)
Definition row_ok (A : matrix) (n : nat) (r : arow) : Prop :=
  List.length (fst r) = n /\ List.length (snd r) = n /\
  forall v, List.length v = n -> vdot (fst r) v = vdot (snd r) (matvec A v).

(** The right halves of the rows separate points: only the zero vector is
    orthogonal to all of them. *)
Definition separating (n : nat) (rows : list arow) : Prop :=
  forall w, List.length w = n ->
    (forall r, In r rows -> vdot (snd r) w = 0) -> w = zeros n.

Record gj_inv (A : matrix) (n k : nat) (done todo : list arow) : Prop := {
  inv_done_len : List.length done = k;
  inv_total : (List.length done + List.length todo)%nat = n;
  inv_rows : forall r, In r (done ++ todo) -> row_ok A n r;
  inv_sep : separating n (done ++ todo);
  inv_done : forall i d j, nth_error done i = Some d -> (j < k)%nat ->
      nth j (fst d) 0 = if Nat.eqb j i then 1 else 0;
  inv_todo : forall r j, In r todo -> (j < k)%nat -> nth j (fst r) 0 = 0
}.

(** The vector that a column [k] without a pivot sends to zero, from the
    pivot rows [done] of the columns before it. *)
Definition kernel_witness (n k : nat) (done : list arow) : vec :=
  map (fun d => - nth k (fst d) 0) done ++ 1 :: zeros (n - S k).

(** A matrix is singular when it sends some non-zero vector to zero. *)
Definition singular (n : nat) (A : matrix) : Prop :=
  exists v, List.length v = n /\ v <> zeros n /\ matvec A v = zeros n.

(** ** [la.inv] in binary64: what it raises

    [la_inv] above computes with exact rationals, so it finds every
    singular matrix.  [scipy.linalg.inv] computes in binary64: it checks
    that its argument is a square array of finite numbers ([ValueError]
    otherwise), factorises it with LAPACK's [getrf], an elimination with
    partial pivoting, and raises [LinAlgError] ("singular matrix") when
    [getrf] reports a pivot that is exactly zero; on every other matrix it
    returns one.  The definitions below follow the elimination in the order
    of LAPACK's [dgetf2] and give the exception, not the matrix returned.
    For two rows every variant of [getrf] does the same two operations,
    [l = a21 * (1 / a11)] and [u22 = a22 - l * a12], the second one in two
    roundings or, fused, in one. *)

(** LAPACK's safe minimum [dlamch('S')]. *)
Definition sfmin : float := 0x1p-1022%float.

(** [idamax]: the position of the first entry of largest absolute value. *)
Fixpoint idamax_from (best : float) (besti i : nat) (xs : list float) : nat :=
  match xs with
  | [] => besti
  | x :: xs' =>
      if PrimFloat.ltb (abs best) (abs x) then idamax_from x i (S i) xs'
      else idamax_from best besti (S i) xs'
  end.

Definition idamax (xs : list float) : nat :=
  match xs with
  | [] => O
  | x :: xs' => idamax_from x 0 1 xs'
  end.

(** The first row and row [p] exchanged. *)
Definition swap_rows (p : nat) (rows : list (list float)) : list (list float) :=
  match rows, p with
  | first :: rest, S p' =>
      nth p' rest first :: firstn p' rest ++ first :: skipn (S p') rest
  | _, _ => rows
  end.

(** The multiplier of a row: the entry times the reciprocal of the pivot,
    or divided by it when the pivot is below the safe minimum. *)
Definition multiplier (pivot x : float) : float :=
  if PrimFloat.leb sfmin (abs pivot) then (x * (1 / pivot))%float else (x / pivot)%float.

(** A row after the elimination of column [k] with the pivot row [prow]. *)
Definition eliminate_float64 (k : nat) (prow row : list float) : list float :=
  let l := multiplier (nth k prow 0%float) (nth k row 0%float) in
  map (fun j =>
         if Nat.ltb k j then (nth j row 0 - l * nth j prow 0)%float
         else if Nat.eqb j k then l else nth j row 0%float)
      (seq 0 (List.length row)).

(** [getrf]'s [info]: the number, from 1, of the first pivot that is exactly
    zero, and 0 when there is none.  [rows] are the rows from [k] on. *)
Fixpoint getrf_info (fuel k : nat) (rows : list (list float)) : nat :=
  match fuel with
  | O => O
  | S fuel' =>
      match swap_rows (idamax (map (fun row => nth k row 0%float) rows)) rows with
      | [] => O
      | prow :: rest =>
          if PrimFloat.eqb (nth k prow 0%float) 0 then S k
          else getrf_info fuel' (S k) (map (eliminate_float64 k prow) rest)
      end
  end.

(** What [la.inv] raises on a matrix of binary64 numbers, if anything. *)
Definition la_inv_error_float64 (A : list (list float)) : option exn :=
  if Nat.eqb (List.length A) 0 ||
     negb (forallb (fun row => Nat.eqb (List.length row) (List.length A)) A) ||
     negb (forallb (forallb is_finite) A)
  then Some ValueError
  else if Nat.eqb (getrf_info (List.length A) 0 A) 0 then None
  else Some LinAlgError.

(** The rational number that a finite binary64 number is. *)
Definition float_to_Q (x : float) : Q :=
  match Prim2SF x with
  | S754_finite s m e =>
      ((if s then inject_Z (Zneg m) else inject_Z (Zpos m)) * Qpower (2 # 1) e)%Q
  | _ => 0%Q
  end.

Definition float_to_Qc (x : float) : Qc := Q2Qc (float_to_Q x).

Definition halves_float64 : list (list float) := [[0.5; 0.5]; [0.5; 0.5]]%float.


(** * Rational arithmetic *)

Lemma this_plus (x y : Qc) : (this (x + y) == this x + this y)%Q.
Proof. apply Qred_correct. Qed.

Lemma this_mult (x y : Qc) : (this (x * y) == this x * this y)%Q.
Proof. apply Qred_correct. Qed.

Lemma this_opp (x : Qc) : (this (- x) == - this x)%Q.
Proof. apply Qred_correct. Qed.

Lemma this_minus (x y : Qc) : (this (x - y) == this x - this y)%Q.
Proof. unfold Qcminus. rewrite this_plus, this_opp. reflexivity. Qed.

Lemma this_Q2Qc (q : Q) : (this (Q2Qc q) == q)%Q.
Proof. apply Qred_correct. Qed.

Lemma Qc_eq_Qeq (x y : Qc) : x = y -> (this x == this y)%Q.
Proof. intros ->. reflexivity. Qed.

Lemma Qc_neq_Qeq (x y : Qc) : x <> y -> ~ (this x == this y)%Q.
Proof. intros H E. apply H. now apply Qc_is_canon. Qed.

(** Linear and polynomial goals over [Qc] are sent to [Q], where [lra] and
    [nra] decide them. *)
Ltac qc_prep :=
  repeat match goal with
  | H : @eq Qc _ _ |- _ => apply Qc_eq_Qeq in H
  | H : not (@eq Qc _ _) |- _ => apply Qc_neq_Qeq in H
  | |- @eq Qc _ _ => apply Qc_is_canon
  | |- not (@eq Qc _ _) => let E := fresh in intros E
  end;
  unfold Qcle, Qclt, Z2Qc in *;
  repeat first [ rewrite this_plus in * | rewrite this_mult in * | rewrite this_opp in *
               | rewrite this_minus in * | rewrite this_Q2Qc in * ];
  change (this 0) with 0%Q in *; change (this 1) with 1%Q in *.

(** The side conditions of [field]: a positive number is not zero. *)
Ltac qc_nonzero :=
  repeat split;
  let E := fresh "E" in
  intros E;
  first [ discriminate E
        | match goal with
          | H : 0 < ?x |- _ => rewrite E in H; discriminate H
          end ].

Ltac qc_lra := qc_prep; lra.
Ltac qc_nra := qc_prep; nra.

Lemma Qc_ltb_true (x y : Qc) : Qc_ltb x y = true <-> x < y.
Proof.
  unfold Qc_ltb. destruct (Qclt_le_dec x y) as [H|H]; split; intros; auto; try discriminate.
  qc_lra.
Qed.

Lemma Qc_ltb_false (x y : Qc) : Qc_ltb x y = false <-> y <= x.
Proof.
  unfold Qc_ltb. destruct (Qclt_le_dec x y) as [H|H]; split; intros; auto; try discriminate.
  qc_lra.
Qed.

Lemma Qc_leb_true (x y : Qc) : Qc_leb x y = true <-> x <= y.
Proof.
  unfold Qc_leb. destruct (Qclt_le_dec y x) as [H|H]; split; intros; auto; try discriminate.
  qc_lra.
Qed.

(** * Vectors *)

Lemma length_zeros n : List.length (zeros n) = n.
Proof. apply repeat_length. Qed.

Lemma length_unit_vec n i : List.length (unit_vec n i) = n.
Proof. unfold unit_vec. now rewrite length_map, length_seq. Qed.

Lemma length_vscale c v : List.length (vscale c v) = List.length v.
Proof. apply length_map. Qed.

Lemma length_vsub u v :
  List.length u = List.length v -> List.length (vsub u v) = List.length u.
Proof.
  revert v. induction u as [|x u IH]; intros [|y v]; simpl; intros H; try discriminate; auto.
Qed.

Lemma length_vadd u v :
  List.length u = List.length v -> List.length (vadd u v) = List.length u.
Proof.
  revert v. induction u as [|x u IH]; intros [|y v]; simpl; intros H; try discriminate; auto.
Qed.

Lemma length_matvec A v : List.length (matvec A v) = List.length A.
Proof. apply length_map. Qed.

Lemma nth_zeros n j : nth j (zeros n) 0 = 0.
Proof.
  unfold zeros. revert j. induction n as [|n IH]; intros [|j]; simpl; auto.
Qed.

Lemma nth_map_in_range (A B : Type) (f : A -> B) (l : list A) (d : B) (d' : A) (j : nat) :
  (j < List.length l)%nat -> nth j (map f l) d = f (nth j l d').
Proof.
  revert j. induction l as [|x l IH]; intros [|j] H; simpl in *; try lia; auto.
  apply IH. lia.
Qed.

Lemma nth_unit_vec n i j :
  (j < n)%nat -> nth j (unit_vec n i) 0 = if Nat.eqb j i then 1 else 0.
Proof.
  intros H. unfold unit_vec.
  rewrite (nth_map_in_range _ _ _ (seq 0 n) 0 O) by now rewrite length_seq.
  now rewrite seq_nth.
Qed.

Lemma nth_vscale c v j : nth j (vscale c v) 0 = c * nth j v 0.
Proof.
  revert j. induction v as [|x v IH]; intros [|j]; simpl; auto; ring.
Qed.

Lemma nth_vsub u v j :
  List.length u = List.length v -> nth j (vsub u v) 0 = nth j u 0 - nth j v 0.
Proof.
  revert v j. induction u as [|x u IH]; intros [|y v] j; simpl; intros H; try discriminate.
  - destruct j; ring.
  - destruct j; auto.
Qed.

Lemma nth_matvec A v i :
  (i < List.length A)%nat -> nth i (matvec A v) 0 = vdot (nth i A []) v.
Proof.
  intros H. unfold matvec. now rewrite (nth_map_in_range _ _ _ A 0 [] i H).
Qed.

Lemma vec_ext (n : nat) (u v : vec) :
  List.length u = n -> List.length v = n ->
  (forall j, (j < n)%nat -> nth j u 0 = nth j v 0) -> u = v.
Proof.
  intros Hu Hv H. apply (nth_ext u v 0 0); [congruence|].
  intros j Hj. apply H. congruence.
Qed.

Lemma vdot_nil_r u : vdot u [] = 0.
Proof. destruct u; reflexivity. Qed.

Lemma vdot_comm u v : vdot u v = vdot v u.
Proof.
  revert v. induction u as [|x u IH]; intros [|y v]; simpl; auto.
  rewrite IH. ring.
Qed.

Lemma vdot_vscale_l c u v : vdot (vscale c u) v = c * vdot u v.
Proof.
  revert v. induction u as [|x u IH]; intros [|y v]; simpl; try ring.
  unfold vscale in IH. rewrite IH. ring.
Qed.

Lemma vdot_vsub_l u u' v :
  List.length u = List.length u' ->
  vdot (vsub u u') v = vdot u v - vdot u' v.
Proof.
  revert u' v. induction u as [|x u IH]; intros [|x' u'] [|y v]; simpl; intros H;
    try discriminate; try ring.
  rewrite IH by lia. ring.
Qed.

Lemma vdot_vadd_l u u' v :
  List.length u = List.length u' ->
  vdot (vadd u u') v = vdot u v + vdot u' v.
Proof.
  revert u' v. induction u as [|x u IH]; intros [|x' u'] [|y v]; simpl; intros H;
    try discriminate; try ring.
  rewrite IH by lia. ring.
Qed.

Lemma vdot_zeros_l n v : vdot (zeros n) v = 0.
Proof.
  revert v. induction n as [|n IH]; intros [|y v]; simpl; auto.
  unfold zeros in IH. rewrite IH. ring.
Qed.

Lemma vdot_zeros_r n u : vdot u (zeros n) = 0.
Proof. rewrite vdot_comm. apply vdot_zeros_l. Qed.

Lemma vdot_app u1 u2 v1 v2 :
  List.length u1 = List.length v1 ->
  vdot (u1 ++ u2) (v1 ++ v2) = vdot u1 v1 + vdot u2 v2.
Proof.
  revert v1. induction u1 as [|x u1 IH]; intros [|y v1]; simpl; intros H; try discriminate.
  - ring.
  - rewrite IH by lia. ring.
Qed.

(** A dot product vanishes when every product of entries does. *)
Lemma vdot_pointwise_zero u v :
  (forall j, nth j u 0 * nth j v 0 = 0) -> vdot u v = 0.
Proof.
  revert v. induction u as [|x u IH]; intros [|y v] H; simpl; auto.
  rewrite IH.
  - specialize (H O). simpl in H. rewrite H. ring.
  - intros j. apply (H (S j)).
Qed.

Lemma vdot_delta s n i v :
  List.length v = n ->
  vdot (map (fun j => if Nat.eqb j i then 1 else 0) (seq s n)) v =
  if Nat.leb s i then nth (i - s) v 0 else 0.
Proof.
  revert s v. induction n as [|n IH]; intros s [|y v] H; simpl in *; try discriminate.
  - destruct (Nat.leb s i); [destruct (i - s)%nat|]; reflexivity.
  - rewrite IH by lia.
    destruct (Nat.eqb_spec s i) as [->|Hne].
    + rewrite Nat.leb_refl, Nat.sub_diag.
      replace (Nat.leb (S i) i) with false by (symmetry; apply Nat.leb_gt; lia).
      ring.
    + destruct (Nat.leb_spec s i) as [Hle|Hgt].
      * replace (Nat.leb (S s) i) with true by (symmetry; apply Nat.leb_le; lia).
        replace (i - s)%nat with (S (i - S s)) by lia. simpl. ring.
      * replace (Nat.leb (S s) i) with false by (symmetry; apply Nat.leb_gt; lia).
        ring.
Qed.

Lemma vdot_unit_l n i v :
  List.length v = n -> vdot (unit_vec n i) v = nth i v 0.
Proof.
  intros H. unfold unit_vec. rewrite vdot_delta by assumption.
  simpl. now rewrite Nat.sub_0_r.
Qed.

Lemma matvec_vsub A u v :
  List.length u = List.length v ->
  matvec A (vsub u v) = vsub (matvec A u) (matvec A v).
Proof.
  intros H. induction A as [|row A IH]; simpl; auto.
  rewrite IH. f_equal.
  rewrite (vdot_comm row), vdot_vsub_l by assumption.
  now rewrite !(vdot_comm row).
Qed.

Lemma vsub_self_zeros n u v :
  List.length u = n -> List.length v = n -> vsub u v = zeros n -> u = v.
Proof.
  intros Hu Hv H. apply (vec_ext n u v Hu Hv). intros j Hj.
  assert (E : nth j (vsub u v) 0 = 0) by (rewrite H; apply nth_zeros).
  rewrite nth_vsub in E by congruence.
  qc_lra.
Qed.


(** * Correctness of the elimination *)

Lemma pick_pivot_some k rows p rest :
  pick_pivot k rows = Some (p, rest) ->
  nth k (fst p) 0 <> 0 /\ Permutation rows (p :: rest).
Proof.
  revert p rest. induction rows as [|r rows IH]; simpl; intros p rest H; [discriminate|].
  destruct (Qc_eq_dec (nth k (fst r) 0) 0) as [E|E].
  - destruct (pick_pivot k rows) as [[p0 rest0]|]; [|discriminate].
    injection H as <- <-. destruct (IH _ _ eq_refl) as [Hp Hperm]. split; auto.
    apply perm_trans with (r :: p0 :: rest0); [now constructor | apply perm_swap].
  - injection H as <- <-. split; auto.
Qed.

Lemma pick_pivot_none k rows :
  pick_pivot k rows = None -> forall r, In r rows -> nth k (fst r) 0 = 0.
Proof.
  induction rows as [|r rows IH]; simpl; intros H r0 Hin; [contradiction|].
  destruct (Qc_eq_dec (nth k (fst r) 0) 0) as [E|E].
  - destruct (pick_pivot k rows) as [[p0 rest0]|]; [discriminate|].
    destruct Hin as [<-|Hin]; auto.
  - discriminate.
Qed.

Section Elimination.
Variable A : matrix.
Variable n : nat.

Lemma row_ok_normalise k p :
  row_ok A n p -> row_ok A n (normalise_pivot k p).
Proof.
  intros (Ha & Hb & Hv). unfold row_ok, normalise_pivot, row_scale. cbn [fst snd].
  split; [|split]; rewrite ?length_vscale; auto.
  intros v Hlen. rewrite !vdot_vscale_l, Hv by assumption. reflexivity.
Qed.

Lemma row_ok_eliminate k p r :
  row_ok A n p -> row_ok A n r -> row_ok A n (eliminate k p r).
Proof.
  intros (Ha & Hb & Hv) (Ha' & Hb' & Hv'). unfold row_ok, eliminate, row_submul. cbn [fst snd].
  split; [|split];
    [rewrite length_vsub; rewrite ?length_vscale; congruence ..|].
  intros v Hlen.
  rewrite !vdot_vsub_l, !vdot_vscale_l, Hv, Hv' by (rewrite ?length_vscale; congruence).
  reflexivity.
Qed.

Lemma nth_normalise_pivot k p j :
  nth j (fst (normalise_pivot k p)) 0 = / nth k (fst p) 0 * nth j (fst p) 0.
Proof. unfold normalise_pivot, row_scale. cbn [fst snd]. apply nth_vscale. Qed.

Lemma nth_eliminate k p r j :
  List.length (fst p) = List.length (fst r) ->
  nth j (fst (eliminate k p r)) 0 =
  nth j (fst r) 0 - nth k (fst r) 0 * nth j (fst p) 0.
Proof.
  intros H. unfold eliminate, row_submul. cbn [fst snd].
  rewrite nth_vsub, nth_vscale by (rewrite length_vscale; congruence).
  reflexivity.
Qed.

Lemma snd_eliminate_dot k p r w :
  List.length (snd p) = List.length (snd r) ->
  vdot (snd (eliminate k p r)) w =
  vdot (snd r) w - nth k (fst r) 0 * vdot (snd p) w.
Proof.
  intros H. unfold eliminate, row_submul. cbn [fst snd].
  rewrite vdot_vsub_l, vdot_vscale_l by (rewrite length_vscale; congruence).
  reflexivity.
Qed.

(** One elimination step keeps the invariant. *)
Lemma gj_inv_step k done todo p rest :
  gj_inv A n k done todo ->
  pick_pivot k todo = Some (p, rest) ->
  gj_inv A n (S k)
    (map (eliminate k (normalise_pivot k p)) done ++ [normalise_pivot k p]%list)
    (map (eliminate k (normalise_pivot k p)) rest).
Proof.
  intros [Hlen Htot Hrows Hsep Hdone Htodo] Hpick.
  destruct (pick_pivot_some _ _ _ _ Hpick) as [Hc Hperm].
  set (c := nth k (fst p) 0) in *.
  set (p' := normalise_pivot k p).
  assert (Hp_in : In p todo) by (apply Permutation_in with (p :: rest); [now symmetry | now left]).
  assert (Hrest_in : forall r, In r rest -> In r todo)
    by (intros r Hr; apply Permutation_in with (p :: rest); [now symmetry | now right]).
  assert (Hp_ok : row_ok A n p) by (apply Hrows, in_or_app; now right).
  assert (Hp'_ok : row_ok A n p') by now apply row_ok_normalise.
  assert (Hold_ok : forall r, In r done \/ In r rest -> row_ok A n r).
  { intros r [Hr|Hr]; apply Hrows, in_or_app; [now left | right; auto]. }
  assert (Hp'_low : forall j, (j < k)%nat -> nth j (fst p') 0 = 0).
  { intros j Hj. unfold p'. rewrite nth_normalise_pivot, (Htodo p j Hp_in Hj). ring. }
  assert (Hp'_k : nth k (fst p') 0 = 1).
  { unfold p'. rewrite nth_normalise_pivot. fold c. now field. }
  assert (Hel_low : forall r j, In r done \/ In r rest -> (j < k)%nat ->
            nth j (fst (eliminate k p' r)) 0 = nth j (fst r) 0).
  { intros r j Hr Hj. destruct Hp'_ok as (Ha & _), (Hold_ok r Hr) as (Ha' & _).
    rewrite nth_eliminate, (Hp'_low j Hj) by congruence. ring. }
  assert (Hel_k : forall r, In r done \/ In r rest ->
            nth k (fst (eliminate k p' r)) 0 = 0).
  { intros r Hr. destruct Hp'_ok as (Ha & _), (Hold_ok r Hr) as (Ha' & _).
    rewrite nth_eliminate, Hp'_k by congruence. ring. }
  assert (Hlen_todo : List.length todo = S (List.length rest))
    by (apply Permutation_length in Hperm; exact Hperm).
  constructor.
  - rewrite length_app, length_map. simpl. lia.
  - rewrite length_app, !length_map. simpl. lia.
  - intros r Hin. rewrite <- app_assoc in Hin.
    apply in_app_or in Hin as [Hin|Hin].
    + apply in_map_iff in Hin as (r0 & <- & Hr0).
      apply row_ok_eliminate; auto.
    + simpl in Hin. destruct Hin as [<-|Hin]; auto.
      apply in_map_iff in Hin as (r0 & <- & Hr0).
      apply row_ok_eliminate; auto.
  - intros w Hw Horth. apply Hsep; auto.
    assert (Hp'w : vdot (snd p') w = 0).
    { apply Horth. apply in_or_app. left. apply in_or_app. right. now left. }
    assert (Hold : forall r, In r done \/ In r rest -> vdot (snd r) w = 0).
    { intros r Hr.
      assert (E : vdot (snd (eliminate k p' r)) w = 0).
      { apply Horth. destruct Hr as [Hr|Hr].
        - apply in_or_app. left. apply in_or_app. left. now apply in_map.
        - apply in_or_app. right. now apply in_map. }
      destruct Hp'_ok as (_ & Hb & _), (Hold_ok r Hr) as (_ & Hb' & _).
      rewrite snd_eliminate_dot, Hp'w in E by congruence.
      rewrite <- E. ring. }
    intros r Hin. apply in_app_or in Hin as [Hin|Hin]; [now apply Hold; left|].
    apply Permutation_in with (l' := p :: rest) in Hin; [|assumption].
    destruct Hin as [<-|Hin]; [|now apply Hold; right].
    unfold p', normalise_pivot, row_scale in Hp'w. cbn [fst snd] in Hp'w.
    rewrite vdot_vscale_l in Hp'w. fold c in Hp'w.
    assert (E : vdot (snd p) w = c * (/ c * vdot (snd p) w)) by now field.
    rewrite E, Hp'w. ring.
  - intros i d j Hnth Hj.
    destruct (Nat.lt_ge_cases i k) as [Hi|Hi].
    + rewrite nth_error_app1 in Hnth by (rewrite length_map; lia).
      rewrite nth_error_map in Hnth.
      destruct (nth_error done i) as [d0|] eqn:Hd0; [|discriminate].
      injection Hnth as <-.
      assert (Hin : In d0 done) by (eapply nth_error_In; eauto).
      destruct (Nat.eq_dec j k) as [->|Hjk].
      * rewrite Hel_k by now left.
        replace (Nat.eqb k i) with false by (symmetry; apply Nat.eqb_neq; lia).
        reflexivity.
      * rewrite Hel_low by (auto; lia). apply (Hdone i d0 j Hd0). lia.
    + rewrite nth_error_app2 in Hnth by (rewrite length_map; lia).
      rewrite length_map, Hlen in Hnth.
      destruct (i - k)%nat as [|m] eqn:Hm; simpl in Hnth.
      * injection Hnth as <-. assert (i = k) by lia. subst i.
        destruct (Nat.eq_dec j k) as [->|Hjk].
        -- now rewrite Nat.eqb_refl.
        -- replace (Nat.eqb j k) with false by (symmetry; apply Nat.eqb_neq; lia).
           apply Hp'_low. lia.
      * destruct m; discriminate.
  - intros r j Hin Hj. apply in_map_iff in Hin as (r0 & <- & Hr0).
    destruct (Nat.eq_dec j k) as [->|Hjk].
    + apply Hel_k. now right.
    + rewrite Hel_low by (auto; lia). apply Htodo; auto. lia.
Qed.

(** When the elimination runs to the end, the invariant holds of its
    result with every column done. *)
Lemma gauss_jordan_some steps k done todo rows :
  gj_inv A n k done todo -> (k + steps)%nat = n ->
  gauss_jordan steps k done todo = Some rows ->
  gj_inv A n n rows [].
Proof.
  revert k done todo. induction steps as [|steps IH]; intros k done todo Hinv Hk; simpl.
  - intros H. injection H as <-. rewrite Nat.add_0_r in Hk. subst k.
    destruct Hinv as [Hlen Htot Hrows Hsep Hdone Htodo].
    assert (todo = []) by (apply length_zero_iff_nil; lia). subst todo.
    constructor; auto.
  - destruct (pick_pivot k todo) as [[p rest]|] eqn:Hpick; [|discriminate].
    intros H.
    apply (IH (S k) _ _ (gj_inv_step k done todo p rest Hinv Hpick)); [lia | exact H].
Qed.

Lemma kernel_witness_orth k done todo r :
  gj_inv A n k done todo -> (k < n)%nat ->
  pick_pivot k todo = None ->
  In r (done ++ todo) -> vdot (fst r) (kernel_witness n k done) = 0.
Proof.
  intros [Hlen Htot Hrows Hsep Hdone Htodo] Hk Hpick Hin.
  destruct (Hrows r Hin) as (Ha & _).
  unfold kernel_witness.
  apply in_app_or in Hin as [Hin|Hin].
  - apply In_nth_error in Hin as [i Hi].
    assert (Hik : (i < k)%nat) by (rewrite <- Hlen; apply nth_error_Some; congruence).
    rewrite <- (firstn_skipn k (fst r)).
    rewrite vdot_app by (rewrite length_firstn, length_map; lia).
    assert (E1 : firstn k (fst r) = unit_vec k i).
    { apply (vec_ext k); [rewrite length_firstn; lia | apply length_unit_vec |].
      intros j Hj. rewrite nth_firstn, nth_unit_vec by assumption.
      replace (Nat.ltb j k) with true by (symmetry; apply Nat.ltb_lt; lia).
      now apply (Hdone i r j). }
    rewrite E1, vdot_unit_l by (rewrite length_map; lia).
    rewrite (nth_map_in_range _ _ _ done 0 r) by lia.
    rewrite (nth_error_nth done i r Hi).
    destruct (skipn k (fst r)) as [|x rest] eqn:Hskip.
    + exfalso. apply (f_equal (@List.length Qc)) in Hskip.
      rewrite length_skipn in Hskip. simpl in Hskip. lia.
    + simpl. rewrite vdot_zeros_r.
      assert (Ex : nth k (fst r) 0 = x).
      { rewrite <- (firstn_skipn k (fst r)) at 1.
        rewrite app_nth2 by (rewrite length_firstn; lia).
        rewrite length_firstn, Hskip.
        replace (k - Nat.min k (List.length (fst r)))%nat with O by lia. reflexivity. }
      rewrite Ex. ring.
  - apply vdot_pointwise_zero. intros j.
    destruct (Nat.lt_trichotomy j k) as [Hj|[->|Hj]].
    + rewrite (Htodo r j Hin Hj). ring.
    + rewrite (pick_pivot_none _ _ Hpick r Hin). ring.
    + rewrite app_nth2 by (rewrite length_map; lia).
      rewrite length_map, Hlen.
      destruct (j - k)%nat as [|m] eqn:Hm; [lia|]. simpl.
      rewrite nth_zeros. ring.
Qed.

Hypothesis A_len : List.length A = n.

Lemma kernel_witness_spec k done todo :
  gj_inv A n k done todo -> (k < n)%nat ->
  pick_pivot k todo = None -> singular n A.
Proof.
  intros Hinv Hk Hpick. exists (kernel_witness n k done).
  assert (Hlenw : List.length (kernel_witness n k done) = n).
  { unfold kernel_witness. rewrite length_app, length_map. simpl.
    rewrite length_zeros, (inv_done_len _ _ _ _ _ Hinv). lia. }
  split; [exact Hlenw|]. split.
  - intros E. apply (f_equal (fun v => nth k v 0)) in E.
    unfold kernel_witness in E.
    rewrite app_nth2 in E by (rewrite length_map, (inv_done_len _ _ _ _ _ Hinv); lia).
    rewrite length_map, (inv_done_len _ _ _ _ _ Hinv), Nat.sub_diag, nth_zeros in E.
    simpl in E. discriminate.
  - apply (inv_sep _ _ _ _ _ Hinv); [now rewrite length_matvec|].
    intros r Hin.
    destruct (inv_rows _ _ _ _ _ Hinv r Hin) as (_ & _ & Hv).
    rewrite <- Hv by assumption.
    now apply (kernel_witness_orth k done todo).
Qed.

Lemma gauss_jordan_none steps k done todo :
  gj_inv A n k done todo -> (k + steps)%nat = n ->
  gauss_jordan steps k done todo = None -> singular n A.
Proof.
  revert k done todo. induction steps as [|steps IH]; intros k done todo Hinv Hk; simpl.
  - discriminate.
  - destruct (pick_pivot k todo) as [[p rest]|] eqn:Hpick.
    + intros H.
      apply (IH (S k) _ _ (gj_inv_step k done todo p rest Hinv Hpick)); [lia | exact H].
    + intros _. apply (kernel_witness_spec k done todo); auto. lia.
Qed.
End Elimination.

(** * Correctness of [la_inv] *)

Lemma squareb_spec A : squareb A = true <-> is_square (List.length A) A.
Proof.
  unfold squareb, is_square. rewrite forallb_forall, Forall_forall. split.
  - intros H. split; auto. intros row Hin. now apply Nat.eqb_eq, H.
  - intros [_ H] row Hin. now apply Nat.eqb_eq, H.
Qed.

Lemma length_identity n : List.length (identity n) = n.
Proof. unfold identity. now rewrite length_map, length_seq. Qed.

Lemma nth_identity n i : (i < n)%nat -> nth i (identity n) (@nil Qc) = unit_vec n i.
Proof.
  intros H. unfold identity.
  rewrite (nth_map_in_range _ _ _ (seq 0 n) [] O) by now rewrite length_seq.
  now rewrite seq_nth.
Qed.

Lemma In_combine_identity n (A : matrix) r :
  List.length A = n -> In r (combine A (identity n)) ->
  exists i, (i < n)%nat /\ r = (nth i A [], unit_vec n i).
Proof.
  intros HA Hin. destruct (In_nth _ _ (@nil Qc, @nil Qc) Hin) as (i & Hi & E).
  rewrite length_combine, length_identity, HA, Nat.min_id in Hi.
  exists i. split; auto.
  rewrite combine_nth in E by now rewrite length_identity.
  rewrite nth_identity in E by assumption. now symmetry.
Qed.

Lemma gj_inv_init n (A : matrix) :
  is_square n A -> gj_inv A n 0 [] (combine A (identity n)).
Proof.
  intros [HA Hrows]. rewrite Forall_forall in Hrows. constructor; simpl.
  - reflexivity.
  - now rewrite length_combine, length_identity, HA, Nat.min_id.
  - intros r Hin. destruct (In_combine_identity n A r HA Hin) as (i & Hi & ->).
    unfold row_ok. cbn [fst snd]. split; [|split].
    + apply Hrows, nth_In. lia.
    + apply length_unit_vec.
    + intros v Hv. rewrite vdot_unit_l by now rewrite length_matvec.
      now rewrite nth_matvec by lia.
  - intros w Hw Horth. apply (vec_ext n); auto using length_zeros.
    intros j Hj. rewrite nth_zeros.
    rewrite <- (vdot_unit_l n j w Hw).
    apply (Horth (nth j A [], unit_vec n j)).
    rewrite <- (nth_identity n j Hj), <- combine_nth by now rewrite length_identity.
    apply nth_In. now rewrite length_combine, length_identity, HA, Nat.min_id.
  - intros i d j Hnth. destruct i; discriminate.
  - intros r j _ Hj. lia.
Qed.

Lemma vdot_vsub_r b x y :
  List.length x = List.length y -> vdot b (vsub x y) = vdot b x - vdot b y.
Proof.
  intros H. rewrite (vdot_comm b), vdot_vsub_l by assumption.
  now rewrite !(vdot_comm b).
Qed.

Section Reduced.
Variable A : matrix.
Variable n : nat.
Variable rows : list (list Qc * list Qc).
Hypothesis A_len : List.length A = n.
Hypothesis Hfinal : gj_inv A n n rows [].

Lemma reduced_fst i d : nth_error rows i = Some d -> fst d = unit_vec n i.
Proof.
  intros Hi.
  assert (Hin : In d (rows ++ [])) by (rewrite app_nil_r; eapply nth_error_In; eauto).
  destruct (inv_rows _ _ _ _ _ Hfinal d Hin) as (Ha & _).
  apply (vec_ext n); auto using length_unit_vec.
  intros j Hj. rewrite nth_unit_vec by assumption.
  now apply (inv_done _ _ _ _ _ Hfinal i d j).
Qed.

Lemma reduced_row i d v :
  nth_error rows i = Some d -> List.length v = n ->
  vdot (snd d) (matvec A v) = nth i v 0.
Proof.
  intros Hi Hv.
  assert (Hin : In d (rows ++ [])) by (rewrite app_nil_r; eapply nth_error_In; eauto).
  destruct (inv_rows _ _ _ _ _ Hfinal d Hin) as (_ & _ & Hd).
  rewrite <- Hd, (reduced_fst i d Hi) by assumption.
  now apply vdot_unit_l.
Qed.

Lemma reduced_square : is_square n (map snd rows).
Proof.
  split.
  - rewrite length_map. apply (inv_done_len _ _ _ _ _ Hfinal).
  - apply Forall_forall. intros b Hb. apply in_map_iff in Hb as (d & <- & Hd).
    assert (Hin : In d (rows ++ [])) by now rewrite app_nil_r.
    now destruct (inv_rows _ _ _ _ _ Hfinal d Hin) as (_ & Hb & _).
Qed.

Lemma reduced_left_inverse v :
  List.length v = n -> matvec (map snd rows) (matvec A v) = v.
Proof.
  intros Hv.
  assert (Hlen : List.length rows = n) by apply (inv_done_len _ _ _ _ _ Hfinal).
  apply (vec_ext n); auto.
  - now rewrite length_matvec, length_map.
  - intros i Hi. rewrite nth_matvec by (rewrite length_map; lia).
    destruct (nth_error rows i) as [d|] eqn:Hd.
    + rewrite (nth_map_in_range _ _ _ rows [] d) by lia.
      rewrite (nth_error_nth rows i d Hd). now apply reduced_row.
    + apply nth_error_None in Hd. lia.
Qed.

Lemma reduced_right_inverse w :
  List.length w = n -> matvec A (matvec (map snd rows) w) = w.
Proof.
  intros Hw.
  assert (Hlen : List.length rows = n) by apply (inv_done_len _ _ _ _ _ Hfinal).
  set (x := matvec (map snd rows) w).
  assert (Hx : List.length x = n) by (unfold x; now rewrite length_matvec, length_map).
  apply (vsub_self_zeros n); auto; [now rewrite length_matvec|].
  apply (inv_sep _ _ _ _ _ Hfinal).
  - rewrite length_vsub; rewrite length_matvec; congruence.
  - intros d Hin. rewrite app_nil_r in Hin.
    destruct (In_nth_error _ _ Hin) as [i Hi].
    assert (Hilt : (i < n)%nat) by (rewrite <- Hlen; apply nth_error_Some; congruence).
    rewrite vdot_vsub_r by (rewrite length_matvec; congruence).
    rewrite (reduced_row i d x Hi Hx). unfold x.
    rewrite nth_matvec by (rewrite length_map; lia).
    rewrite (nth_map_in_range _ _ _ rows [] d) by lia.
    rewrite (nth_error_nth rows i d Hi). ring.
Qed.
End Reduced.

(** A result of [la_inv] is a two-sided inverse. *)
Lemma la_inv_ok n A N :
  is_square n A -> la_inv A = Ok N ->
  is_square n N /\
  (forall v, List.length v = n -> matvec N (matvec A v) = v) /\
  (forall w, List.length w = n -> matvec A (matvec N w) = w).
Proof.
  intros Hsq H. pose proof Hsq as [HA _]. unfold la_inv in H.
  destruct (negb (Nat.eqb (List.length A) 0) && squareb A); [|discriminate].
  rewrite HA in H.
  destruct (gauss_jordan n 0 [] (combine A (identity n))) as [rows|] eqn:Hgj; [|discriminate].
  injection H as <-.
  assert (Hfinal : gj_inv A n n rows []).
  { apply (gauss_jordan_some A n n 0 [] (combine A (identity n)));
      auto using gj_inv_init. }
  split; [|split].
  - exact (reduced_square A n rows Hfinal).
  - intros v Hv. exact (reduced_left_inverse A n rows HA Hfinal v Hv).
  - intros w Hw. exact (reduced_right_inverse A n rows HA Hfinal w Hw).
Qed.

(** [la_inv] raises [LinAlgError] only on a singular matrix. *)
Lemma la_inv_raise n A :
  is_square n A -> la_inv A = Raise LinAlgError -> singular n A.
Proof.
  intros Hsq H. pose proof Hsq as [HA _]. unfold la_inv in H.
  destruct (negb (Nat.eqb (List.length A) 0) && squareb A); [|discriminate].
  rewrite HA in H.
  destruct (gauss_jordan n 0 [] (combine A (identity n))) as [rows|] eqn:Hgj; [discriminate|].
  apply (gauss_jordan_none A n HA n 0 [] (combine A (identity n)));
    auto using gj_inv_init.
Qed.

Lemma la_inv_cases n A :
  (0 < n)%nat -> is_square n A ->
  (exists N, la_inv A = Ok N) \/ la_inv A = Raise LinAlgError.
Proof.
  intros Hn Hsq. unfold la_inv.
  replace (negb (Nat.eqb (List.length A) 0) && squareb A) with true.
  - destruct (gauss_jordan _ _ _ _); eauto.
  - symmetry. apply andb_true_iff. destruct Hsq as [HA Hr]. split.
    + apply negb_true_iff, Nat.eqb_neq. lia.
    + apply squareb_spec. now rewrite HA.
Qed.




(** On a matrix with a trivial kernel [la_inv] returns. *)
Lemma la_inv_regular n A :
  (0 < n)%nat -> is_square n A ->
  (forall v, List.length v = n -> matvec A v = zeros n -> v = zeros n) ->
  exists N, la_inv A = Ok N.
Proof.
  intros Hn Hsq Hker.
  destruct (la_inv_cases n A Hn Hsq) as [HN|H]; auto.
  destruct (la_inv_raise n A Hsq H) as (v & Hv & Hne & Hz).
  exfalso. auto.
Qed.

(** * [np_dot] on a column *)

Lemma col0_column c : col 0 (column c) = c.
Proof.
  unfold col, column. rewrite map_map. simpl. apply map_id.
Qed.

Lemma np_dot_column n N c :
  (0 < n)%nat -> is_square n N -> List.length c = n ->
  np_dot N (column c) = Ok (column (matvec N c)).
Proof.
  intros Hn [HN Hrows] Hc. unfold np_dot.
  replace (forallb _ N) with true.
  - f_equal. unfold ncols.
    destruct c as [|x c]; [simpl in Hc; lia|].
    change (hd [] (column (x :: c))) with (x :: @nil Qc). simpl seq.
    unfold column at 2, matvec. rewrite map_map. apply map_ext. intros row.
    simpl map. now rewrite col0_column.
  - symmetry. apply forallb_forall. intros row Hin. apply Nat.eqb_eq.
    rewrite Forall_forall in Hrows. unfold column. rewrite length_map.
    rewrite (Hrows row Hin). congruence.
Qed.



(** * The calibration-matrix builder *)

Lemma Z2Qc_add a b : Z2Qc (a + b) = Z2Qc a + Z2Qc b.
Proof. qc_prep. rewrite inject_Z_plus. reflexivity. Qed.

Lemma Z2Qc_le a b : (a <= b)%Z -> Z2Qc a <= Z2Qc b.
Proof. intros H. qc_prep. now rewrite <- Zle_Qle. Qed.

Lemma Z2Qc_lt a b : (a < b)%Z -> Z2Qc a < Z2Qc b.
Proof. intros H. qc_prep. now rewrite <- Zlt_Qlt. Qed.

Lemma Z2Qc_0 : Z2Qc 0 = 0.
Proof. now apply Qc_is_canon. Qed.

Lemma Qcdiv_bounds a t : 0 < t -> 0 <= a -> a <= t -> 0 <= a / t /\ a / t <= 1.
Proof.
  intros Ht Ha Hat.
  assert (E : a / t * t = a) by (field; intros E; rewrite E in Ht; discriminate).
  set (r := a / t) in *. clearbody r.
  split; qc_nra.
Qed.

Lemma shot_total_nonneg counts :
  Forall (fun c => (0 <= c)%Z) counts -> (0 <= shot_total counts)%Z.
Proof.
  induction 1 as [|c counts Hc _ IH]; simpl; lia.
Qed.

Lemma shot_total_bound counts c :
  Forall (fun c => (0 <= c)%Z) counts -> In c counts -> (c <= shot_total counts)%Z.
Proof.
  induction 1 as [|c0 counts Hc0 Hall IH]; simpl; [contradiction|].
  pose proof (shot_total_nonneg counts Hall).
  intros [->|Hin]; [lia|]. specialize (IH Hin). lia.
Qed.

Lemma vsum_scaled_counts counts k :
  vsum (map (fun c => Z2Qc c / k) counts) = Z2Qc (shot_total counts) / k.
Proof.
  induction counts as [|c counts IH]; simpl.
  - rewrite Z2Qc_0. unfold Qcdiv. ring.
  - rewrite IH, Z2Qc_add. unfold Qcdiv. ring.
Qed.

Lemma normalise_ok counts :
  shot_total counts <> 0%Z ->
  normalise counts = Ok (map (fun c => Z2Qc c / Z2Qc (shot_total counts)) counts).
Proof.
  intros H. unfold normalise.
  now replace (Z.eqb (shot_total counts) 0) with false by (symmetry; now apply Z.eqb_neq).
Qed.

Lemma normalise_zero counts :
  shot_total counts = 0%Z -> normalise counts = Raise InvalidInput.
Proof. intros H. unfold normalise. now rewrite H. Qed.

Lemma normalise_all_ok cal :
  Forall (fun counts => shot_total counts <> 0%Z) cal ->
  normalise_all cal =
  Ok (map (fun counts => map (fun c => Z2Qc c / Z2Qc (shot_total counts)) counts) cal).
Proof.
  induction 1 as [|counts cal H _ IH]; simpl; auto.
  now rewrite (normalise_ok counts H), IH.
Qed.

Lemma normalise_all_zero cal :
  Exists (fun counts => shot_total counts = 0%Z) cal ->
  normalise_all cal = Raise InvalidInput.
Proof.
  induction cal as [|counts cal IH]; intros H; [inversion H|].
  simpl. destruct (Z.eq_dec (shot_total counts) 0) as [E|E].
  - now rewrite (normalise_zero counts E).
  - rewrite (normalise_ok counts E). simpl.
    inversion H as [? ? H0|? ? H0]; subst; [contradiction|].
    now rewrite (IH H0).
Qed.

Lemma length_columns_to_matrix N cols : List.length (columns_to_matrix N cols) = N.
Proof. unfold columns_to_matrix. now rewrite length_map, length_seq. Qed.

Lemma columns_to_matrix_square N cols : is_square N (columns_to_matrix N cols).
Proof.
  split; [apply length_columns_to_matrix|].
  apply Forall_forall. intros row Hin. unfold columns_to_matrix in Hin.
  apply in_map_iff in Hin as (i & <- & _). now rewrite length_map, length_seq.
Qed.

Lemma entry_columns_to_matrix N cols i j :
  (i < N)%nat -> (j < N)%nat ->
  entry (columns_to_matrix N cols) i j = nth i (nth j cols []) 0.
Proof.
  intros Hi Hj. unfold entry, columns_to_matrix.
  rewrite (nth_map_in_range _ _ _ (seq 0 N) [] O) by now rewrite length_seq.
  rewrite (nth_map_in_range _ _ _ (seq 0 N) 0 O) by now rewrite length_seq.
  now rewrite !seq_nth.
Qed.

Lemma nth_col j A i : (i < List.length A)%nat -> nth i (col j A) 0 = entry A i j.
Proof.
  intros H. unfold col, entry. now rewrite (nth_map_in_range _ _ _ A 0 []).
Qed.

Lemma length_col j A : List.length (col j A) = List.length A.
Proof. apply length_map. Qed.

Lemma col_columns_to_matrix N cols j :
  (j < N)%nat -> List.length (nth j cols []) = N ->
  col j (columns_to_matrix N cols) = nth j cols [].
Proof.
  intros Hj Hlen. apply (vec_ext N); auto.
  - now rewrite length_col, length_columns_to_matrix.
  - intros i Hi. rewrite nth_col by now rewrite length_columns_to_matrix.
    now apply entry_columns_to_matrix.
Qed.

(** * Finite sums *)

Lemma sum_n_ext f g n :
  (forall i, (i < n)%nat -> f i = g i) -> sum_n f n = sum_n g n.
Proof.
  induction n as [|n IH]; intros H; simpl; auto.
  rewrite IH, H by auto with arith. reflexivity.
Qed.

Lemma sum_n_le f g n :
  (forall i, (i < n)%nat -> f i <= g i) -> sum_n f n <= sum_n g n.
Proof.
  induction n as [|n IH]; intros H; simpl.
  - apply Qcle_refl.
  - apply Qcplus_le_compat; auto with arith.
Qed.

Lemma sum_n_zero n : sum_n (fun _ => 0) n = 0.
Proof. induction n as [|n IH]; simpl; auto. rewrite IH. ring. Qed.

Lemma sum_n_nonneg f n :
  (forall i, (i < n)%nat -> 0 <= f i) -> 0 <= sum_n f n.
Proof.
  intros H. rewrite <- (sum_n_zero n). now apply sum_n_le.
Qed.

Lemma sum_n_term_le f n m :
  (forall i, (i < n)%nat -> 0 <= f i) -> (m < n)%nat -> f m <= sum_n f n.
Proof.
  induction n as [|n IH]; intros H Hm; [lia|]. simpl.
  assert (H0 : 0 <= sum_n f n) by (apply sum_n_nonneg; auto with arith).
  assert (Hn : 0 <= f n) by auto with arith.
  destruct (Nat.eq_dec m n) as [->|Hne].
  - qc_lra.
  - assert (Hm' : f m <= sum_n f n) by (apply IH; auto with arith; lia).
    qc_lra.
Qed.

Lemma sum_n_plus f g n :
  sum_n (fun i => f i + g i) n = sum_n f n + sum_n g n.
Proof. induction n as [|n IH]; simpl; [ring|]. rewrite IH. ring. Qed.

Lemma sum_n_minus f g n :
  sum_n (fun i => f i - g i) n = sum_n f n - sum_n g n.
Proof. induction n as [|n IH]; simpl; [ring|]. rewrite IH. ring. Qed.

Lemma sum_n_scale_r f c n :
  sum_n (fun i => f i * c) n = sum_n f n * c.
Proof. induction n as [|n IH]; simpl; [ring|]. rewrite IH. ring. Qed.

Lemma sum_n_scale_l f c n :
  sum_n (fun i => c * f i) n = c * sum_n f n.
Proof. induction n as [|n IH]; simpl; [ring|]. rewrite IH. ring. Qed.

Lemma sum_n_const c n : sum_n (fun _ => c) n = Z2Qc (Z.of_nat n) * c.
Proof.
  induction n as [|n IH].
  - simpl. rewrite Z2Qc_0. ring.
  - cbn [sum_n]. rewrite IH, Nat2Z.inj_succ. unfold Z.succ. rewrite Z2Qc_add.
    replace (Z2Qc 1) with 1 by now apply Qc_is_canon. ring.
Qed.

Lemma sum_n_swap (f : nat -> nat -> Qc) n m :
  sum_n (fun i => sum_n (fun j => f i j) m) n =
  sum_n (fun j => sum_n (fun i => f i j) n) m.
Proof.
  induction n as [|n IH]; simpl.
  - now rewrite sum_n_zero.
  - now rewrite IH, sum_n_plus.
Qed.

Lemma sum_n_shift f n :
  sum_n f (S n) = f O + sum_n (fun i => f (S i)) n.
Proof.
  induction n as [|n IH]; [simpl; ring|].
  change (sum_n f (S (S n))) with (sum_n f (S n) + f (S n)).
  rewrite IH. simpl. ring.
Qed.

Lemma Qcabs_sum_n f n : Qcabs (sum_n f n) <= sum_n (fun i => Qcabs (f i)) n.
Proof.
  induction n as [|n IH]; simpl.
  - rewrite Qcabs_pos; apply Qcle_refl.
  - eapply Qcle_trans; [apply Qcabs_triangle|].
    apply Qcplus_le_compat; [exact IH | apply Qcle_refl].
Qed.

(** One term against the whole sum: [2|f m| <= |sum f| + sum |f|]. *)
Lemma sum_n_single_term f n m :
  (m < n)%nat ->
  two * Qcabs (f m) <= Qcabs (sum_n f n) + sum_n (fun j => Qcabs (f j)) n.
Proof.
  induction n as [|n IH]; intros Hm; [lia|]. simpl.
  pose proof (Qcabs_sum_n f n) as Habs.
  destruct (Nat.eq_dec m n) as [->|Hne].
  - pose proof (Qcabs_triangle (sum_n f n + f n) (- sum_n f n)) as Ht.
    replace (sum_n f n + f n + - sum_n f n) with (f n) in Ht by ring.
    rewrite Qcabs_opp in Ht. qc_lra.
  - assert (Hm' : (m < n)%nat) by lia. specialize (IH Hm').
    pose proof (Qcabs_triangle (sum_n f n + f n) (- f n)) as Ht.
    replace (sum_n f n + f n + - f n) with (sum_n f n) in Ht by ring.
    rewrite Qcabs_opp in Ht. qc_lra.
Qed.

Lemma vdot_sum_n n u v :
  List.length u = n -> List.length v = n ->
  vdot u v = sum_n (fun j => nth j u 0 * nth j v 0) n.
Proof.
  revert u v. induction n as [|n IH]; intros [|x u] [|y v] Hu Hv; simpl in Hu, Hv;
    try discriminate; auto.
  rewrite sum_n_shift. simpl. f_equal. apply IH; lia.
Qed.

Lemma vsum_sum_n n v :
  List.length v = n -> vsum v = sum_n (fun j => nth j v 0) n.
Proof.
  revert v. induction n as [|n IH]; intros [|x v] Hv; simpl in Hv; try discriminate; auto.
  rewrite sum_n_shift. simpl. f_equal. apply IH; lia.
Qed.

Lemma argmax_exists (f : nat -> Qc) n :
  (0 < n)%nat -> exists m, (m < n)%nat /\ forall j, (j < n)%nat -> f j <= f m.
Proof.
  induction n as [|n IH]; intros Hn; [lia|].
  destruct n as [|n].
  - exists O. split; [lia|]. intros j Hj. replace j with O by lia. apply Qcle_refl.
  - destruct IH as (m & Hm & Hmax); [lia|].
    destruct (Qclt_le_dec (f m) (f (S n))) as [Hlt|Hle].
    + exists (S n). split; [lia|]. intros j Hj.
      destruct (Nat.eq_dec j (S n)) as [->|Hne]; [apply Qcle_refl|].
      assert (Hj' : f j <= f m) by (apply Hmax; lia). qc_lra.
    + exists m. split; [lia|]. intros j Hj.
      destruct (Nat.eq_dec j (S n)) as [->|Hne]; auto. apply Hmax. lia.
Qed.

(** * Diagonal dominance *)

Lemma Qcdiv_le_iff a b d : 0 < d -> (a / d <= b <-> a <= b * d).
Proof.
  intros Hd.
  assert (E : a / d * d = a) by (field; intros E; rewrite E in Hd; discriminate).
  set (r := a / d) in *. clearbody r. split; intros H; qc_nra.
Qed.

Lemma Qcabs_nonneg' x : 0 <= Qcabs x.
Proof. apply Qcabs_nonneg. Qed.

Lemma nth_map_Qcabs r j : nth j (map Qcabs r) 0 = Qcabs (nth j r 0).
Proof.
  revert j. induction r as [|y r IH]; intros [|j]; simpl; auto;
    symmetry; apply Qcabs_pos, Qcle_refl.
Qed.

Lemma matvec_entry n A e k :
  is_square n A -> List.length e = n -> (k < n)%nat ->
  nth k (matvec A e) 0 = sum_n (fun j => entry A k j * nth j e 0) n.
Proof.
  intros [HA Hrows] He Hk. rewrite Forall_forall in Hrows.
  rewrite nth_matvec by lia.
  apply vdot_sum_n; auto. apply Hrows, nth_In. lia.
Qed.

Lemma row_margin_sum n A i :
  is_square n A -> (i < n)%nat ->
  row_margin A i = two * Qcabs (entry A i i) - sum_n (fun j => Qcabs (entry A i j)) n.
Proof.
  intros [HA Hrows] Hi. rewrite Forall_forall in Hrows. unfold row_margin.
  rewrite (vsum_sum_n n) by (rewrite length_map; apply Hrows, nth_In; lia).
  f_equal. apply sum_n_ext. intros j _. apply nth_map_Qcabs.
Qed.

Lemma col_margin_sum n A j :
  is_square n A -> (j < n)%nat ->
  col_margin A j = two * Qcabs (entry A j j) - sum_n (fun i => Qcabs (entry A i j)) n.
Proof.
  intros [HA Hrows] Hj. unfold col_margin.
  rewrite (vsum_sum_n n) by now rewrite length_map, length_col.
  f_equal. apply sum_n_ext. intros i Hi.
  rewrite nth_map_Qcabs, nth_col by lia. reflexivity.
Qed.

Section Dominance.
Variable n : nat.
Variable A : list (list Qc).
Variable g : Qc.
Variable e : list Qc.
Hypothesis A_square : is_square n A.
Hypothesis g_pos : 0 < g.
Hypothesis e_len : List.length e = n.

Let norm1 : Qc := sum_n (fun k => Qcabs (nth k (matvec A e) 0)) n.

(** Row [k] of [A . e] against its diagonal term. *)
Lemma dominance_row_bound k :
  (k < n)%nat ->
  two * (Qcabs (entry A k k) * Qcabs (nth k e 0)) <=
  Qcabs (nth k (matvec A e) 0) + sum_n (fun j => Qcabs (entry A k j) * Qcabs (nth j e 0)) n.
Proof.
  intros Hk. rewrite (matvec_entry n A e k A_square e_len Hk).
  pose proof (sum_n_single_term (fun j => entry A k j * nth j e 0) n k Hk) as H.
  cbv beta in H. rewrite Qcabs_Qcmult in H.
  rewrite (sum_n_ext (fun j => Qcabs (entry A k j * nth j e 0))
             (fun j => Qcabs (entry A k j) * Qcabs (nth j e 0))) in H
    by (intros j _; apply Qcabs_Qcmult).
  exact H.
Qed.

Lemma dominance_by_rows i :
  (forall k, (k < n)%nat -> g <= row_margin A k) ->
  (i < n)%nat -> g * Qcabs (nth i e 0) <= norm1.
Proof.
  intros Hdom Hi.
  destruct (argmax_exists (fun j => Qcabs (nth j e 0)) n) as (m & Hm & Hmax); [lia|].
  cbv beta in Hmax.
  pose proof (dominance_row_bound m Hm) as Hrow.
  assert (Hsum : sum_n (fun j => Qcabs (entry A m j) * Qcabs (nth j e 0)) n <=
                 sum_n (fun j => Qcabs (entry A m j)) n * Qcabs (nth m e 0)).
  { rewrite <- sum_n_scale_r. apply sum_n_le. intros j Hj.
    pose proof (Hmax j Hj). pose proof (Qcabs_nonneg' (entry A m j)). qc_nra. }
  pose proof (Hdom m Hm) as Hg. rewrite (row_margin_sum n A m A_square Hm) in Hg.
  assert (Hterm : Qcabs (nth m (matvec A e) 0) <= norm1).
  { apply (sum_n_term_le (fun k => Qcabs (nth k (matvec A e) 0))); auto.
    intros k _. apply Qcabs_nonneg. }
  pose proof (Hmax i Hi) as Him.
  pose proof (Qcabs_nonneg' (nth m e 0)). pose proof (Qcabs_nonneg' (nth i e 0)).
  set (S1 := sum_n (fun j => Qcabs (entry A m j)) n) in *.
  set (S2 := sum_n (fun j => Qcabs (entry A m j) * Qcabs (nth j e 0)) n) in *.
  set (T := Qcabs (nth m (matvec A e) 0)) in *.
  set (d := Qcabs (entry A m m)) in *. set (xm := Qcabs (nth m e 0)) in *. set (xi := Qcabs (nth i e 0)) in *.
  clearbody S1 S2 T d xm xi norm1. qc_nra.
Qed.

Lemma dominance_by_cols i :
  (forall j, (j < n)%nat -> g <= col_margin A j) ->
  (i < n)%nat -> g * Qcabs (nth i e 0) <= norm1.
Proof.
  intros Hdom Hi.
  assert (H1 : sum_n (fun k => two * (Qcabs (entry A k k) * Qcabs (nth k e 0))) n <=
               norm1 + sum_n (fun k => sum_n (fun j => Qcabs (entry A k j) * Qcabs (nth j e 0)) n) n).
  { unfold norm1. rewrite <- sum_n_plus. apply sum_n_le. intros k Hk.
    now apply dominance_row_bound. }
  rewrite sum_n_swap in H1.
  assert (H2 : sum_n (fun j => g * Qcabs (nth j e 0)) n <=
               sum_n (fun j => two * (Qcabs (entry A j j) * Qcabs (nth j e 0)) -
                               sum_n (fun k => Qcabs (entry A k j) * Qcabs (nth j e 0)) n) n).
  { apply sum_n_le. intros j Hj.
    pose proof (Hdom j Hj) as Hg. rewrite (col_margin_sum n A j A_square Hj) in Hg.
    rewrite sum_n_scale_r.
    pose proof (Qcabs_nonneg' (nth j e 0)).
    set (S1 := sum_n (fun k => Qcabs (entry A k j)) n) in *.
    set (d := Qcabs (entry A j j)) in *. set (xj := Qcabs (nth j e 0)) in *.
    clearbody S1 d xj. qc_nra. }
  rewrite sum_n_minus in H2.
  assert (H3 : g * Qcabs (nth i e 0) <= sum_n (fun j => g * Qcabs (nth j e 0)) n).
  { apply (sum_n_term_le (fun j => g * Qcabs (nth j e 0))); auto.
    intros j _. pose proof (Qcabs_nonneg' (nth j e 0)). qc_nra. }
  set (P := sum_n (fun k => two * (Qcabs (entry A k k) * Qcabs (nth k e 0))) n) in *.
  set (R := sum_n (fun j => sum_n (fun k => Qcabs (entry A k j) * Qcabs (nth j e 0)) n) n) in *.
  set (L := sum_n (fun j => g * Qcabs (nth j e 0)) n) in *.
  set (xi := g * Qcabs (nth i e 0)) in *.
  clearbody P R L xi norm1. qc_lra.
Qed.

(** A dominant matrix does not shrink a vector below the margin: every
    entry of [e], times [g], is at most the 1-norm of [A . e]. *)
Lemma dominant_bound i :
  dominant_by g n A -> (i < n)%nat ->
  g * Qcabs (nth i e 0) <= sum_n (fun k => Qcabs (nth k (matvec A e) 0)) n.
Proof.
  intros [Hrows|Hcols] Hi; [now apply dominance_by_rows | now apply dominance_by_cols].
Qed.
End Dominance.

(** A diagonally dominant matrix has a trivial kernel. *)
Lemma dominant_regular n A g v :
  is_square n A -> 0 < g -> dominant_by g n A ->
  List.length v = n -> matvec A v = zeros n -> v = zeros n.
Proof.
  intros Hsq Hg Hdom Hv Hz.
  apply (vec_ext n); auto using length_zeros.
  intros i Hi. rewrite nth_zeros.
  pose proof (dominant_bound n A g v Hsq Hg Hv i Hdom Hi) as H.
  rewrite Hz in H.
  rewrite (sum_n_ext _ (fun _ => 0)) in H
    by (intros k _; rewrite nth_zeros; now apply Qcabs_pos, Qcle_refl).
  rewrite sum_n_zero in H.
  apply Qcabs_null.
  pose proof (Qcabs_nonneg' (nth i v 0)).
  set (y := Qcabs (nth i v 0)) in *. clearbody y.
  apply Qcle_antisym; qc_nra.
Qed.

(** * Rounding *)

Lemma Z2Qc_1 : Z2Qc 1 = 1.
Proof. now apply Qc_is_canon. Qed.

Lemma Qfloor_bounds (q : Qc) : Z2Qc (Qfloor q) <= q /\ q < Z2Qc (Qfloor q) + 1.
Proof.
  pose proof (Qfloor_le q) as H1. pose proof (Qlt_floor q) as H2.
  rewrite inject_Z_plus in H2.
  split; qc_prep; [exact H1 | exact H2].
Qed.

Lemma round_half_even_error q :
  Qcabs (Z2Qc (round_half_even q) - q) <= Q2Qc (1 # 2).
Proof.
  destruct (Qfloor_bounds q) as [H1 H2].
  unfold round_half_even.
  set (f := Qfloor q) in *. set (h := Q2Qc (1 # 2)).
  assert (Hh : h + h = 1) by now apply Qc_is_canon.
  assert (Hcase : forall z, - h <= Z2Qc z - q -> Z2Qc z - q <= h ->
                            Qcabs (Z2Qc z - q) <= h).
  { intros z Ha Hb. apply Qcabs_Qcle_condition. split; assumption. }
  assert (Hf1 : Z2Qc (f + 1) = Z2Qc f + 1) by now rewrite Z2Qc_add, Z2Qc_1.
  destruct (Qc_ltb (q - Z2Qc f) h) eqn:E1.
  - apply Qc_ltb_true in E1. apply Hcase; clearbody h; qc_lra.
  - apply Qc_ltb_false in E1.
    destruct (Qc_ltb h (q - Z2Qc f)) eqn:E2.
    + apply Qc_ltb_true in E2. apply Hcase; rewrite Hf1; clearbody h; qc_lra.
    + apply Qc_ltb_false in E2.
      destruct (Z.even f); apply Hcase; rewrite ?Hf1; clearbody h; qc_lra.
Qed.

(** * The tolerance of the round trip *)

Lemma Z2Qc_pos z : (0 < z)%Z -> 0 < Z2Qc z.
Proof. intros H. rewrite <- Z2Qc_0. now apply Z2Qc_lt. Qed.

Lemma Z2Qc_nat_nonneg n : 0 <= Z2Qc (Z.of_nat n).
Proof. rewrite <- Z2Qc_0. apply Z2Qc_le. lia. Qed.

Lemma tolerance_spec n g S :
  0 < g -> (0 < S)%Z -> tolerance n g S * (two * g * Z2Qc S) = Z2Qc (Z.of_nat n).
Proof.
  intros Hg HS. apply Z2Qc_pos in HS. unfold tolerance. field. qc_nonzero.
Qed.

Lemma tolerance_nonneg n g S : 0 < g -> (0 < S)%Z -> 0 <= tolerance n g S.
Proof.
  intros Hg HS. pose proof (tolerance_spec n g S Hg HS) as E.
  pose proof (Z2Qc_nat_nonneg n) as Hn. apply Z2Qc_pos in HS.
  set (T := tolerance n g S) in *. set (s := Z2Qc S) in *. set (m := Z2Qc (Z.of_nat n)) in *.
  clearbody T s m.
  destruct (Qclt_le_dec T 0) as [Hneg|Hpos]; [|exact Hpos].
  exfalso. assert (0 < g * s) by qc_nra. qc_nra.
Qed.

(** More shots, smaller tolerance. *)
Lemma tolerance_antitone n g S S' :
  0 < g -> (0 < S)%Z -> (S <= S')%Z -> tolerance n g S' <= tolerance n g S.
Proof.
  intros Hg HS HSS.
  assert (HS' : (0 < S')%Z) by lia.
  pose proof (tolerance_spec n g S Hg HS) as E.
  pose proof (tolerance_spec n g S' Hg HS') as E'.
  pose proof (tolerance_nonneg n g S Hg HS) as HT.
  apply Z2Qc_le in HSS. apply Z2Qc_pos in HS, HS'.
  set (T := tolerance n g S) in *. set (T' := tolerance n g S') in *.
  set (s := Z2Qc S) in *. set (s' := Z2Qc S') in *. set (m := Z2Qc (Z.of_nat n)) in *.
  clearbody T T' s s' m.
  destruct (Qclt_le_dec T T') as [Hlt|Hle]; [|exact Hle].
  exfalso.
  assert (H1 : 0 < g * s') by qc_nra.
  assert (H2 : T * (g * s') < T' * (g * s')) by qc_nra.
  assert (H0 : 0 <= T * g) by qc_nra.
  assert (H3 : (T * g) * s <= (T * g) * s') by qc_nra.
  qc_lra.
Qed.

(** The tolerance gets below every positive bound. *)
Lemma tolerance_vanishes n g eps :
  0 < g -> 0 < eps ->
  exists S0, (0 < S0)%Z /\ forall S', (S0 <= S')%Z -> tolerance n g S' <= eps.
Proof.
  intros Hg Heps.
  set (B := Z2Qc (Z.of_nat n) / (two * g * eps)).
  assert (HB : B * (two * g * eps) = Z2Qc (Z.of_nat n)).
  { unfold B. field. qc_nonzero. }
  pose proof (Z2Qc_nat_nonneg n) as Hn.
  assert (HB0 : 0 <= B).
  { destruct (Qclt_le_dec B 0) as [Hneg|Hpos]; [|exact Hpos].
    exfalso. set (m := Z2Qc (Z.of_nat n)) in *. clearbody B m.
    assert (0 < g * eps) by qc_nra. qc_nra. }
  destruct (Qfloor_bounds B) as [Hf1 Hf2].
  exists (Qfloor B + 1)%Z. split.
  - assert (Hfl : (Qfloor 0 <= Qfloor B)%Z) by (apply Qfloor_resp_le; exact HB0).
    change (Qfloor 0) with 0%Z in Hfl. lia.
  - intros S' HS'.
    assert (HS'pos : (0 < S')%Z).
    { assert (Hfl : (Qfloor 0 <= Qfloor B)%Z) by (apply Qfloor_resp_le; exact HB0).
      change (Qfloor 0) with 0%Z in Hfl. lia. }
    pose proof (tolerance_spec n g S' Hg HS'pos) as E.
    apply Z2Qc_le in HS'. rewrite Z2Qc_add, Z2Qc_1 in HS'.
    set (T := tolerance n g S') in *. set (s := Z2Qc S') in *.
    set (m := Z2Qc (Z.of_nat n)) in *. set (fl := Z2Qc (Qfloor B)) in *.
    clearbody T s m fl B.
    destruct (Qclt_le_dec eps T) as [Hlt|Hle]; [|exact Hle].
    exfalso.
    assert (H0 : 0 < s) by qc_lra.
    assert (H1 : 0 < g * s) by qc_nra.
    assert (H2 : eps * (g * s) < T * (g * s)) by qc_nra.
    assert (H3 : 0 < g * eps) by qc_nra.
    assert (H4 : B * (g * eps) < s * (g * eps)) by qc_nra.
    qc_lra.
Qed.

(** * Least squares: algebra *)

Lemma nth_vadd u v j :
  List.length u = List.length v -> nth j (vadd u v) 0 = nth j u 0 + nth j v 0.
Proof.
  revert v j. induction u as [|x u IH]; intros [|y v] j; simpl; intros H; try discriminate.
  - destruct j; ring.
  - destruct j; auto.
Qed.

Lemma vdot_vadd_r b x y :
  List.length x = List.length y -> vdot b (vadd x y) = vdot b x + vdot b y.
Proof.
  intros H. rewrite (vdot_comm b), vdot_vadd_l by assumption.
  now rewrite !(vdot_comm b).
Qed.

Lemma vdot_vscale_r b t x : vdot b (vscale t x) = t * vdot b x.
Proof. now rewrite (vdot_comm b), vdot_vscale_l, (vdot_comm b). Qed.

Lemma matvec_vadd A u v :
  List.length u = List.length v ->
  matvec A (vadd u v) = vadd (matvec A u) (matvec A v).
Proof.
  intros H. induction A as [|row A IH]; simpl; auto.
  rewrite IH. f_equal. now apply vdot_vadd_r.
Qed.

Lemma matvec_vscale A t d : matvec A (vscale t d) = vscale t (matvec A d).
Proof.
  induction A as [|row A IH]; simpl; auto.
  rewrite IH. f_equal. apply vdot_vscale_r.
Qed.

Lemma vsum_vadd u v :
  List.length u = List.length v -> vsum (vadd u v) = vsum u + vsum v.
Proof.
  revert v. induction u as [|x u IH]; intros [|y v]; simpl; intros H; try discriminate.
  - ring.
  - rewrite IH by lia. ring.
Qed.

Lemma vsum_vscale t v : vsum (vscale t v) = t * vsum v.
Proof.
  induction v as [|x v IH]; [simpl; ring|].
  unfold vscale, vsum in *. simpl. rewrite IH. ring.
Qed.

Lemma vdot_self_nonneg w : 0 <= vdot w w.
Proof.
  induction w as [|x w IH]; simpl; [apply Qcle_refl|]. qc_nra.
Qed.

Lemma vdot_self_zero w : vdot w w = 0 -> w = zeros (List.length w).
Proof.
  induction w as [|x w IH]; simpl; intros H; auto.
  pose proof (vdot_self_nonneg w) as Hw.
  assert (Hx : x = 0).
  { set (s := vdot w w) in *. clearbody s.
    destruct (Qc_eq_dec x 0) as [E|E]; auto. exfalso.
    assert (0 < x * x).
    { destruct (Qclt_le_dec x 0); [|assert (0 < x) by (apply Qcle_lt_or_eq in q; destruct q; [assumption|congruence])]; qc_nra. }
    qc_lra. }
  assert (Hs : vdot w w = 0) by (subst x; set (s := vdot w w) in *; clearbody s; qc_lra).
  unfold zeros in *. simpl. rewrite Hx. f_equal. now apply IH.
Qed.

(** The residual along a line: a quadratic in the step [t]. *)
Lemma residual_line n A c y d t :
  is_square n A -> List.length c = n -> List.length y = n -> List.length d = n ->
  residual A c (vadd y (vscale t d)) =
  residual A c y
  + two * t * vdot (matvec A d) (vsub (matvec A y) c)
  + t * t * vdot (matvec A d) (matvec A d).
Proof.
  intros [HA _] Hc Hy Hd. unfold residual.
  rewrite matvec_vadd by (rewrite length_vscale; congruence).
  rewrite matvec_vscale.
  set (u := matvec A y). set (w := matvec A d).
  assert (Hu : List.length u = n) by (unfold u; now rewrite length_matvec).
  assert (Hw : List.length w = n) by (unfold w; now rewrite length_matvec).
  assert (E : vsub (vadd u (vscale t w)) c = vadd (vsub u c) (vscale t w)).
  { apply (vec_ext n).
    - rewrite length_vsub; rewrite length_vadd; rewrite ?length_vscale; congruence.
    - rewrite length_vadd; rewrite ?length_vsub, ?length_vscale; congruence.
    - intros j Hj.
      rewrite nth_vsub by (rewrite length_vadd; rewrite ?length_vscale; congruence).
      rewrite !nth_vadd by (rewrite ?length_vsub, ?length_vscale; congruence).
      rewrite nth_vsub by congruence. ring. }
  rewrite E.
  assert (Hr : List.length (vsub u c) = List.length (vscale t w))
    by (rewrite length_vsub, length_vscale; congruence).
  rewrite vdot_vadd_l, !vdot_vadd_r, !vdot_vscale_l, !vdot_vscale_r by assumption.
  rewrite (vdot_comm (vsub u c) w). ring.
Qed.

(** The adjoint identity: [<A . d, r> = sum_j d_j <col_j A, r>]. *)
Lemma vdot_matvec_adjoint n A d r :
  is_square n A -> List.length d = n -> List.length r = n ->
  vdot (matvec A d) r = sum_n (fun j => nth j d 0 * vdot (col j A) r) n.
Proof.
  intros Hsq Hd Hr. pose proof Hsq as [HA _].
  rewrite (vdot_sum_n n) by (auto; now rewrite length_matvec).
  rewrite (sum_n_ext _ (fun i => sum_n (fun j => entry A i j * nth j d 0 * nth i r 0) n)).
  2:{ intros i Hi. rewrite (matvec_entry n A d i Hsq Hd Hi).
      now rewrite <- sum_n_scale_r. }
  rewrite sum_n_swap. apply sum_n_ext. intros j Hj.
  rewrite (vdot_sum_n n) by (auto; now rewrite length_col).
  rewrite <- sum_n_scale_l. apply sum_n_ext. intros i Hi.
  rewrite nth_col by lia. ring.
Qed.

(** * Least squares: faces of the feasible set *)

Lemma exists_neg_or_all_nonneg (f : nat -> Qc) n :
  (exists j, (j < n)%nat /\ f j < 0) \/ (forall j, (j < n)%nat -> 0 <= f j).
Proof.
  induction n as [|n [(j & Hj & Hneg)|Hall]].
  - right. intros j Hj. lia.
  - left. exists j. split; [lia | exact Hneg].
  - destruct (Qclt_le_dec (f n) 0) as [Hneg|Hpos].
    + left. exists n. split; [lia | exact Hneg].
    + right. intros j Hj. destruct (Nat.eq_dec j n) as [->|Hne]; auto.
      apply Hall. lia.
Qed.

Lemma exists_nonzero_or_all_zero (f : nat -> Qc) n :
  (exists j, (j < n)%nat /\ f j <> 0) \/ (forall j, (j < n)%nat -> f j = 0).
Proof.
  induction n as [|n [(j & Hj & Hne)|Hall]].
  - right. intros j Hj. lia.
  - left. exists j. split; [lia | exact Hne].
  - destruct (Qc_eq_dec (f n) 0) as [Hz|Hnz].
    + right. intros j Hj. destruct (Nat.eq_dec j n) as [->|Hne]; auto.
      apply Hall. lia.
    + left. exists n. split; [lia | exact Hnz].
Qed.

Lemma sum_n_zero_nonneg f n :
  (forall j, (j < n)%nat -> 0 <= f j) -> sum_n f n = 0 ->
  forall j, (j < n)%nat -> f j = 0.
Proof.
  intros Hpos Hsum j Hj.
  pose proof (sum_n_term_le f n j Hpos Hj) as H. rewrite Hsum in H.
  apply Qcle_antisym; auto.
Qed.

(** A sum that vanishes with a non-zero term has a negative term. *)
Lemma sum_n_zero_negative f n :
  sum_n f n = 0 -> (exists j, (j < n)%nat /\ f j <> 0) ->
  exists j, (j < n)%nat /\ f j < 0.
Proof.
  intros Hsum (j & Hj & Hne).
  destruct (exists_neg_or_all_nonneg f n) as [H|H]; auto.
  exfalso. apply Hne. now apply (sum_n_zero_nonneg f n).
Qed.

(** Among the indices where [d] is negative, one minimises the ratio
    [y j / (- d j)]; the comparison is written without the division. *)
Lemma min_ratio (y d : nat -> Qc) n :
  (exists j0, (j0 < n)%nat /\ d j0 < 0) ->
  exists j1, (j1 < n)%nat /\ d j1 < 0 /\
    forall j, (j < n)%nat -> d j < 0 -> y j1 * (- d j) <= y j * (- d j1).
Proof.
  induction n as [|n IH]; intros (j0 & Hj0 & Hneg); [lia|].
  destruct (exists_neg_or_all_nonneg d n) as [Hex|Hall].
  - destruct (IH Hex) as (j1 & Hj1 & Hd1 & Hmin).
    destruct (Qclt_le_dec (d n) 0) as [Hdn|Hdn].
    + destruct (Qclt_le_dec (y n * (- d j1)) (y j1 * (- d n))) as [Hlt|Hle].
      * exists n. split; [lia|]. split; [exact Hdn|].
        intros j Hj Hdj. destruct (Nat.eq_dec j n) as [->|Hne]; [apply Qcle_refl|].
        assert (Hjm : y j1 * (- d j) <= y j * (- d j1)) by (apply Hmin; auto; lia).
        set (a := y n) in *. set (b := y j1) in *. set (c := y j) in *.
        set (dn := d n) in *. set (d1 := d j1) in *. set (dj := d j) in *.
        clearbody a b c dn d1 dj.
        destruct (Qclt_le_dec (c * (- dn)) (a * (- dj))) as [Hbad|Hok]; [|exact Hok].
        exfalso.
        assert (H1 : (a * (- d1)) * (- dj) < (b * (- dn)) * (- dj)) by qc_nra.
        assert (H2 : (b * (- dj)) * (- dn) <= (c * (- d1)) * (- dn)) by qc_nra.
        assert (H3 : (c * (- dn)) * (- d1) < (a * (- dj)) * (- d1)) by qc_nra.
        qc_lra.
      * exists j1. split; [lia|]. split; [exact Hd1|].
        intros j Hj Hdj. destruct (Nat.eq_dec j n) as [->|Hne]; [exact Hle|].
        apply Hmin; auto. lia.
    + exists j1. split; [lia|]. split; [exact Hd1|].
      intros j Hj Hdj. destruct (Nat.eq_dec j n) as [->|Hne]; [qc_lra|].
      apply Hmin; auto. lia.
  - assert (j0 = n).
    { destruct (Nat.eq_dec j0 n); auto. assert (0 <= d j0) by (apply Hall; lia). qc_lra. }
    subst j0. exists n. split; [lia|]. split; [exact Hneg|].
    intros j Hj Hdj. destruct (Nat.eq_dec j n) as [->|Hne]; [apply Qcle_refl|].
    assert (0 <= d j) by (apply Hall; lia). qc_lra.
Qed.

(** Leaving the non-negative orthant from [y] along [d]: the largest step
    that keeps every entry non-negative brings an entry to zero. *)
Lemma exit_step (y d : nat -> Qc) n :
  (forall j, (j < n)%nat -> 0 <= y j) ->
  (exists j0, (j0 < n)%nat /\ d j0 < 0) ->
  exists t j1,
    0 <= t /\ (j1 < n)%nat /\ d j1 < 0 /\ y j1 + t * d j1 = 0 /\
    (forall j, (j < n)%nat -> 0 <= y j + t * d j) /\
    (forall j, (j < n)%nat -> d j < 0 -> t * (- d j) <= y j).
Proof.
  intros Hy Hex. destruct (min_ratio y d n Hex) as (j1 & Hj1 & Hd1 & Hmin).
  set (t := y j1 / (- d j1)).
  assert (Ht : t * (- d j1) = y j1).
  { unfold t. field. intros E. qc_lra. }
  pose proof (Hy j1 Hj1) as Hy1.
  assert (Ht0 : 0 <= t).
  { destruct (Qclt_le_dec t 0) as [Hn|Hp]; [|exact Hp]. exfalso.
    set (a := y j1) in *. set (b := d j1) in *. clearbody t a b. qc_nra. }
  assert (Hstep : forall j, (j < n)%nat -> d j < 0 -> t * (- d j) <= y j).
  { intros j Hj Hdj. pose proof (Hmin j Hj Hdj) as Hm.
    set (a := y j1) in *. set (b := d j1) in *. set (c := y j) in *. set (e := d j) in *.
    clearbody t a b c e.
    destruct (Qclt_le_dec c (t * (- e))) as [Hbad|Hok]; [|exact Hok]. exfalso.
    assert (H1 : c * (- b) < (t * (- e)) * (- b)) by qc_nra.
    assert (H2 : (t * (- b)) * (- e) = a * (- e)) by (rewrite Ht; ring).
    qc_lra. }
  exists t, j1. repeat split; auto.
  - set (a := y j1) in *. set (b := d j1) in *. clearbody t a b. qc_lra.
  - intros j Hj. pose proof (Hy j Hj) as Hyj.
    destruct (Qclt_le_dec (d j) 0) as [Hdj|Hdj].
    + pose proof (Hstep j Hj Hdj). set (c := y j) in *. set (e := d j) in *.
      clearbody t c e. qc_lra.
    + set (c := y j) in *. set (e := d j) in *. clearbody t c e. qc_nra.
Qed.

(** ** Masks *)

Lemma count_filter_remove (mask : nat -> bool) j l :
  NoDup l -> mask j = true ->
  List.length (filter mask l) =
  ((if in_dec Nat.eq_dec j l then 1 else 0) +
   List.length (filter (remove_index j mask) l))%nat.
Proof.
  intros Hnd Hj. induction l as [|k l IH]; simpl; auto.
  inversion Hnd as [|? ? Hnotin Hnd']; subst.
  specialize (IH Hnd'). unfold remove_index at 1.
  destruct (Nat.eq_dec k j) as [->|Hne].
  - rewrite Hj, Nat.eqb_refl. simpl.
    destruct (in_dec Nat.eq_dec j l) as [Hin|_]; [contradiction|].
    simpl in IH. rewrite IH. reflexivity.
  - replace (Nat.eqb k j) with false by (symmetry; now apply Nat.eqb_neq).
    rewrite andb_true_r.
    destruct (in_dec Nat.eq_dec j l) as [Hin|Hnin].
    + destruct (mask k); simpl; rewrite IH; reflexivity.
    + destruct (mask k); simpl; rewrite IH; reflexivity.
Qed.

Lemma count_mask_remove n mask j :
  (j < n)%nat -> mask j = true ->
  count_mask n mask = S (count_mask n (remove_index j mask)).
Proof.
  intros Hj Hm. unfold count_mask.
  rewrite (count_filter_remove mask j (seq 0 n)) by (auto using seq_NoDup).
  destruct (in_dec Nat.eq_dec j (seq 0 n)) as [_|Hnin]; [reflexivity|].
  exfalso. apply Hnin, in_seq. lia.
Qed.

Lemma count_mask_pos n mask :
  (0 < count_mask n mask)%nat -> exists j, (j < n)%nat /\ mask j = true.
Proof.
  unfold count_mask. intros H.
  destruct (filter mask (seq 0 n)) as [|j l] eqn:E; [simpl in H; lia|].
  assert (Hin : In j (filter mask (seq 0 n))) by (rewrite E; now left).
  apply filter_In in Hin as [Hin Hm]. apply in_seq in Hin.
  exists j. split; [lia | exact Hm].
Qed.

Lemma count_mask_zero n mask :
  count_mask n mask = O -> forall j, (j < n)%nat -> mask j = false.
Proof.
  unfold count_mask. intros H j Hj.
  destruct (mask j) eqn:Hm; auto.
  assert (Hin : In j (filter mask (seq 0 n))).
  { apply filter_In. split; [apply in_seq; lia | exact Hm]. }
  apply length_zero_iff_nil in H. rewrite H in Hin. contradiction.
Qed.

Lemma remove_index_false j mask k :
  mask k = false -> remove_index j mask k = false.
Proof. intros H. unfold remove_index. now rewrite H. Qed.

Lemma remove_index_self j mask : remove_index j mask j = false.
Proof. unfold remove_index. rewrite Nat.eqb_refl. apply andb_false_r. Qed.

Lemma remove_index_other j mask k :
  k <> j -> remove_index j mask k = mask k.
Proof.
  intros H. unfold remove_index.
  replace (Nat.eqb k j) with false by (symmetry; now apply Nat.eqb_neq).
  apply andb_true_r.
Qed.

(** ** Faces *)

Lemma in_face_weaken n T mask j x :
  in_face n T (remove_index j mask) x -> in_face n T mask x.
Proof.
  intros (Hl & Hp & Hs & Hz). repeat split; auto.
  intros k Hk Hm. apply Hz; auto. now apply remove_index_false.
Qed.

Lemma in_face_boundary n T mask j x :
  in_face n T mask x -> (j < n)%nat -> nth j x 0 = 0 ->
  in_face n T (remove_index j mask) x.
Proof.
  intros (Hl & Hp & Hs & Hz) Hj Hx. repeat split; auto.
  intros k Hk Hm. destruct (Nat.eq_dec k j) as [->|Hne]; auto.
  apply Hz; auto. now rewrite <- (remove_index_other j mask k).
Qed.

Lemma feasible_in_face n T x :
  feasible n T x <-> in_face n T (fun _ => true) x.
Proof.
  unfold feasible, in_face. split.
  - intros (Hl & Hp & Hs). repeat split; auto; [|discriminate].
    intros j Hj. rewrite Forall_forall in Hp. apply Hp, nth_In. lia.
  - intros (Hl & Hp & Hs & _). repeat split; auto.
    apply Forall_forall. intros v Hv.
    destruct (In_nth x v 0 Hv) as (j & Hj & <-). apply Hp. lia.
Qed.

(** The point [T . e_j] of the face. *)
Lemma in_face_vertex n T mask j :
  0 <= T -> (j < n)%nat -> mask j = true ->
  in_face n T mask (vscale T (unit_vec n j)).
Proof.
  intros HT Hj Hm. repeat split.
  - now rewrite length_vscale, length_unit_vec.
  - intros k Hk. rewrite nth_vscale, nth_unit_vec by assumption.
    destruct (Nat.eqb k j); qc_lra.
  - rewrite vsum_vscale, (vsum_sum_n n) by apply length_unit_vec.
    rewrite (sum_n_ext _ (fun k => nth k (unit_vec n j) 0 * nth k (repeat 1 n) 0))
      by (intros k Hk; rewrite nth_repeat_lt by exact Hk; ring).
    rewrite <- (vdot_sum_n n) by (auto using length_unit_vec, repeat_length).
    rewrite vdot_unit_l by apply repeat_length.
    rewrite nth_repeat_lt by exact Hj. ring.
  - intros k Hk Hmk. rewrite nth_vscale, nth_unit_vec by assumption.
    destruct (Nat.eqb_spec k j) as [->|Hne]; [congruence | ring].
Qed.

(** * Least squares: the optimality system *)

Lemma vdot_ones n x : List.length x = n -> vdot (repeat 1 n) x = vsum x.
Proof.
  revert x. induction n as [|n IH]; intros [|y x] H; simpl in *; try discriminate; auto.
  rewrite IH by lia. ring.
Qed.

Lemma split_last n (z : list Qc) :
  List.length z = S n -> z = firstn n z ++ nth n z 0 :: nil.
Proof.
  revert z. induction n as [|n IH]; intros [|y z] H; simpl in *; try discriminate.
  - destruct z; [reflexivity | discriminate].
  - f_equal. apply IH. lia.
Qed.

Section Optimality.
Variable n : nat.
Variable A : list (list Qc).
Variable mask : nat -> bool.
Hypothesis A_square : is_square n A.

Lemma length_kkt_row j : List.length (kkt_row n A mask j) = S n.
Proof.
  unfold kkt_row. destruct (mask j); rewrite length_app; simpl;
    rewrite ?length_map, ?length_seq, ?length_unit_vec; lia.
Qed.

Lemma kkt_square : is_square (S n) (kkt_matrix n A mask).
Proof.
  unfold kkt_matrix. split.
  - rewrite length_app, length_map, length_seq. simpl. lia.
  - apply Forall_forall. intros row Hin. apply in_app_or in Hin as [Hin|Hin].
    + apply in_map_iff in Hin as (j & <- & _). apply length_kkt_row.
    + destruct Hin as [<-|[]]. rewrite length_app, repeat_length. simpl. lia.
Qed.

Lemma gram_apply j x :
  List.length x = n ->
  vdot (map (fun k => vdot (col j A) (col k A)) (seq 0 n)) x =
  vdot (col j A) (matvec A x).
Proof.
  intros Hx. pose proof A_square as [HA _].
  rewrite (vdot_comm (col j A)).
  rewrite (vdot_matvec_adjoint n A x (col j A) A_square Hx)
    by now rewrite length_col.
  rewrite (vdot_sum_n n) by (auto; now rewrite length_map, length_seq).
  apply sum_n_ext. intros k Hk.
  rewrite (nth_map_in_range _ _ _ (seq 0 n) 0 O) by now rewrite length_seq.
  rewrite seq_nth by assumption. simpl. rewrite (vdot_comm (col j A)). ring.
Qed.

Lemma kkt_apply_row j x lam :
  (j < n)%nat -> List.length x = n ->
  nth j (matvec (kkt_matrix n A mask) (x ++ lam :: nil)) 0 =
  if mask j then vdot (col j A) (matvec A x) + lam else nth j x 0.
Proof.
  intros Hj Hx. pose proof kkt_square as [HK _].
  rewrite nth_matvec by lia. unfold kkt_matrix.
  rewrite app_nth1 by now rewrite length_map, length_seq.
  rewrite (nth_map_in_range _ _ _ (seq 0 n) [] O) by now rewrite length_seq.
  rewrite seq_nth by assumption. simpl. unfold kkt_row.
  destruct (mask j).
  - rewrite vdot_app by now rewrite length_map, length_seq.
    rewrite gram_apply by assumption. simpl. ring.
  - rewrite vdot_app by now rewrite length_unit_vec.
    rewrite vdot_unit_l by assumption. simpl. ring.
Qed.

Lemma kkt_apply_last x lam :
  List.length x = n ->
  nth n (matvec (kkt_matrix n A mask) (x ++ lam :: nil)) 0 = vsum x.
Proof.
  intros Hx. pose proof kkt_square as [HK _].
  rewrite nth_matvec by lia. unfold kkt_matrix.
  rewrite app_nth2 by (rewrite length_map, length_seq; lia).
  rewrite length_map, length_seq, Nat.sub_diag. simpl nth.
  rewrite vdot_app by now rewrite repeat_length.
  rewrite vdot_ones by assumption. simpl. ring.
Qed.

(** A singular system: a direction inside the face along which [A]
    vanishes. *)
Lemma kkt_kernel :
  la_inv (kkt_matrix n A mask) = Raise LinAlgError ->
  (exists j, (j < n)%nat /\ mask j = true) ->
  exists v,
    List.length v = n /\ vsum v = 0 /\
    (forall j, (j < n)%nat -> mask j = false -> nth j v 0 = 0) /\
    matvec A v = zeros n /\
    (exists j, (j < n)%nat /\ nth j v 0 <> 0).
Proof.
  intros HK (j0 & Hj0 & Hm0). pose proof A_square as [HA _].
  destruct (la_inv_raise (S n) _ kkt_square HK) as (z & Hz & Hne & Hker).
  rewrite (split_last n z Hz) in Hker.
  set (v := firstn n z) in *. set (mu := nth n z 0) in *.
  assert (Hv : List.length v = n) by (unfold v; rewrite length_firstn; lia).
  assert (Hrow : forall j, (j < n)%nat ->
            (if mask j then vdot (col j A) (matvec A v) + mu else nth j v 0) = 0).
  { intros j Hj. rewrite <- (kkt_apply_row j v mu Hj Hv), Hker. apply nth_zeros. }
  assert (Hsum : vsum v = 0).
  { rewrite <- (kkt_apply_last v mu Hv), Hker. apply nth_zeros. }
  assert (Hoff : forall j, (j < n)%nat -> mask j = false -> nth j v 0 = 0).
  { intros j Hj Hm. specialize (Hrow j Hj). now rewrite Hm in Hrow. }
  assert (HAv : matvec A v = zeros n).
  { rewrite <- HA, <- (length_matvec A v). apply vdot_self_zero.
    rewrite (vdot_matvec_adjoint n A v (matvec A v) A_square Hv)
      by now rewrite length_matvec.
    rewrite (sum_n_ext _ (fun j => nth j v 0 * (- mu))).
    - rewrite sum_n_scale_r, <- (vsum_sum_n n v Hv), Hsum. ring.
    - intros j Hj. specialize (Hrow j Hj). destruct (mask j) eqn:Hm.
      + replace (vdot (col j A) (matvec A v)) with (- mu); [reflexivity|].
        set (q := vdot (col j A) (matvec A v)) in *. clearbody q mu. qc_lra.
      + rewrite Hrow. ring. }
  assert (Hmu : mu = 0).
  { specialize (Hrow j0 Hj0). rewrite Hm0, HAv, vdot_zeros_r in Hrow.
    clearbody mu. qc_lra. }
  exists v. split; [exact Hv|]. split; [exact Hsum|]. split; [exact Hoff|].
  split; [exact HAv|].
  destruct (exists_nonzero_or_all_zero (fun j => nth j v 0) n) as [H|H]; auto.
  exfalso. apply Hne. rewrite (split_last n z Hz). fold v. fold mu.
  rewrite Hmu.
  replace v with (zeros n).
  - unfold zeros. change (0 :: nil) with (repeat 0 1).
    rewrite <- repeat_app. f_equal. lia.
  - symmetry. apply (vec_ext n); auto using length_zeros.
    intros j Hj. rewrite nth_zeros. now apply H.
Qed.
Variable c : list Qc.
Variable total : Qc.
Hypothesis c_len : List.length c = n.

Lemma length_kkt_rhs : List.length (kkt_rhs n A c total mask) = S n.
Proof.
  unfold kkt_rhs. rewrite length_app, length_map, length_seq. simpl. lia.
Qed.

Lemma kkt_rhs_row j :
  (j < n)%nat ->
  nth j (kkt_rhs n A c total mask) 0 = if mask j then vdot (col j A) c else 0.
Proof.
  intros Hj. unfold kkt_rhs.
  rewrite app_nth1 by now rewrite length_map, length_seq.
  rewrite (nth_map_in_range _ _ _ (seq 0 n) 0 O) by now rewrite length_seq.
  now rewrite seq_nth.
Qed.

Lemma kkt_rhs_last : nth n (kkt_rhs n A c total mask) 0 = total.
Proof.
  unfold kkt_rhs. rewrite app_nth2 by (rewrite length_map, length_seq; lia).
  now rewrite length_map, length_seq, Nat.sub_diag.
Qed.

(** A solution of the system: a stationary point of the residual on the
    affine hull of the face. *)
Lemma kkt_solution Kinv :
  la_inv (kkt_matrix n A mask) = Ok Kinv ->
  exists a lam,
    List.length a = n /\ vsum a = total /\
    (forall j, (j < n)%nat -> mask j = false -> nth j a 0 = 0) /\
    (forall j, (j < n)%nat -> mask j = true ->
       vdot (col j A) (vsub (matvec A a) c) = - lam).
Proof.
  intros HK. pose proof A_square as [HA _].
  destruct (la_inv_ok (S n) _ Kinv kkt_square HK) as ([HKl _] & _ & Hright).
  specialize (Hright _ length_kkt_rhs).
  set (z := matvec Kinv (kkt_rhs n A c total mask)) in *.
  assert (Hz : List.length z = S n) by (unfold z; now rewrite length_matvec).
  rewrite (split_last n z Hz) in Hright.
  set (a := firstn n z) in *. set (lam := nth n z 0) in *.
  assert (Ha : List.length a = n) by (unfold a; rewrite length_firstn; lia).
  exists a, lam. split; [exact Ha|]. split; [|split].
  - rewrite <- (kkt_apply_last a lam Ha), Hright. apply kkt_rhs_last.
  - intros j Hj Hm.
    pose proof (kkt_apply_row j a lam Hj Ha) as E.
    rewrite Hright, kkt_rhs_row, Hm in E by assumption. now symmetry.
  - intros j Hj Hm.
    pose proof (kkt_apply_row j a lam Hj Ha) as E.
    rewrite Hright, kkt_rhs_row, Hm in E by assumption.
    rewrite vdot_vsub_r by (rewrite length_matvec; congruence).
    rewrite E. ring.
Qed.

End Optimality.

(** * Least squares: a minimiser exists *)

Lemma vsum_vsub u v :
  List.length u = List.length v -> vsum (vsub u v) = vsum u - vsum v.
Proof.
  revert v. induction u as [|x u IH]; intros [|y v]; simpl; intros H; try discriminate.
  - ring.
  - rewrite IH by lia. ring.
Qed.

Lemma vadd_vsub_cancel n y a :
  List.length y = n -> List.length a = n ->
  vadd y (vscale 1 (vsub a y)) = a.
Proof.
  intros Hy Ha. apply (vec_ext n); auto.
  - rewrite length_vadd; rewrite ?length_vscale, ?length_vsub; congruence.
  - intros j Hj.
    rewrite nth_vadd by (rewrite length_vscale, length_vsub; congruence).
    rewrite nth_vscale, nth_vsub by congruence. ring.
Qed.

Lemma sum_n_single f n j0 :
  (j0 < n)%nat -> (forall j, (j < n)%nat -> j <> j0 -> f j = 0) ->
  sum_n f n = f j0.
Proof.
  induction n as [|n IH]; intros Hj0 Hz; [lia|]. simpl.
  destruct (Nat.eq_dec j0 n) as [->|Hne].
  - rewrite (sum_n_ext f (fun _ => 0)), sum_n_zero by (intros j Hj; apply Hz; lia).
    ring.
  - rewrite IH by (auto; lia). rewrite (Hz n) by lia. ring.
Qed.

Lemma count_mask_full n : count_mask n (fun _ => true) = n.
Proof.
  unfold count_mask.
  replace (filter (fun _ : nat => true) (seq 0 n)) with (seq 0 n).
  - apply length_seq.
  - symmetry. apply forallb_filter_id. now apply forallb_forall.
Qed.

Section Minimiser.
Variable n : nat.
Variable A : list (list Qc).
Variable c : list Qc.
Variable total : Qc.
Hypothesis A_square : is_square n A.
Hypothesis c_len : List.length c = n.
Hypothesis total_nonneg : 0 <= total.

(** From a point of a face along a direction of the face that has a
    negative entry, up to the boundary of the face. *)
Lemma move_in_face mask y d :
  in_face n total mask y ->
  List.length d = n -> vsum d = 0 ->
  (forall j, (j < n)%nat -> mask j = false -> nth j d 0 = 0) ->
  (exists j0, (j0 < n)%nat /\ nth j0 d 0 < 0) ->
  exists t j1,
    0 <= t /\ (j1 < n)%nat /\ mask j1 = true /\
    in_face n total (remove_index j1 mask) (vadd y (vscale t d)) /\
    (forall j, (j < n)%nat -> nth j d 0 < 0 -> t * (- nth j d 0) <= nth j y 0).
Proof.
  intros (Hl & Hp & Hs & Hz) Hd Hsd Hdz Hneg.
  destruct (exit_step (fun j => nth j y 0) (fun j => nth j d 0) n Hp Hneg)
    as (t & j1 & Ht & Hj1 & Hd1 & Hzero & Hpos & Hstep).
  assert (Hnth : forall j, nth j (vadd y (vscale t d)) 0 = nth j y 0 + t * nth j d 0).
  { intros j. rewrite nth_vadd by (rewrite length_vscale; congruence).
    now rewrite nth_vscale. }
  assert (Hm1 : mask j1 = true).
  { destruct (mask j1) eqn:E; auto. exfalso.
    rewrite (Hdz j1 Hj1 E) in Hd1. discriminate. }
  exists t, j1. repeat split; auto.
  - rewrite length_vadd; rewrite ?length_vscale; congruence.
  - intros j Hj. rewrite Hnth. now apply Hpos.
  - rewrite vsum_vadd, vsum_vscale, Hsd, Hs by (rewrite length_vscale; congruence).
    ring.
  - intros k Hk Hm. rewrite Hnth.
    destruct (Nat.eq_dec k j1) as [->|Hne]; [exact Hzero|].
    rewrite remove_index_other in Hm by assumption.
    rewrite (Hz k Hk Hm), (Hdz k Hk Hm). ring.
Qed.

(** The residual is convex: between [y] and a point [a] that is at least
    as good, every point is at least as good as [y]. *)
Lemma segment_decrease y a t :
  List.length y = n -> List.length a = n ->
  residual A c a <= residual A c y -> 0 <= t -> t <= 1 ->
  residual A c (vadd y (vscale t (vsub a y))) <= residual A c y.
Proof.
  intros Hy Ha Hle Ht0 Ht1.
  assert (Hd : List.length (vsub a y) = n) by (rewrite length_vsub; congruence).
  pose proof (residual_line n A c y (vsub a y) 1 A_square c_len Hy Hd) as H1.
  rewrite (vadd_vsub_cancel n y a Hy Ha) in H1.
  rewrite (residual_line n A c y (vsub a y) t A_square c_len Hy Hd).
  pose proof (vdot_self_nonneg (matvec A (vsub a y))) as HC.
  set (B := vdot (matvec A (vsub a y)) (vsub (matvec A y) c)) in *.
  set (C := vdot (matvec A (vsub a y)) (matvec A (vsub a y))) in *.
  set (fy := residual A c y) in *. set (fa := residual A c a) in *.
  clearbody B C fy fa.
  assert (H0 : 0 <= t * C) by qc_nra.
  assert (H2 : (t * C) * t <= (t * C) * 1) by qc_nra.
  assert (H4 : B + B + C <= 0) by qc_lra.
  assert (H3 : t * (B + B + C) <= 0) by qc_nra.
  qc_lra.
Qed.

(** A stationary point minimises the residual over the affine hull of the
    face. *)
Lemma affine_minimiser mask a lam y :
  List.length a = n -> vsum a = total ->
  (forall j, (j < n)%nat -> mask j = false -> nth j a 0 = 0) ->
  (forall j, (j < n)%nat -> mask j = true ->
     vdot (col j A) (vsub (matvec A a) c) = - lam) ->
  List.length y = n -> vsum y = total ->
  (forall j, (j < n)%nat -> mask j = false -> nth j y 0 = 0) ->
  residual A c a <= residual A c y.
Proof.
  intros Ha Hsa Hza Hkkt Hy Hsy Hzy. pose proof A_square as [HA _].
  assert (Hd : List.length (vsub y a) = n) by (rewrite length_vsub; congruence).
  pose proof (residual_line n A c a (vsub y a) 1 A_square c_len Ha Hd) as H1.
  rewrite (vadd_vsub_cancel n a y Ha Hy) in H1.
  assert (HB : vdot (matvec A (vsub y a)) (vsub (matvec A a) c) = 0).
  { rewrite (vdot_matvec_adjoint n A _ _ A_square Hd)
      by (rewrite length_vsub; rewrite length_matvec; congruence).
    rewrite (sum_n_ext _ (fun j => nth j (vsub y a) 0 * (- lam))).
    - rewrite sum_n_scale_r, <- (vsum_sum_n n _ Hd), vsum_vsub, Hsa, Hsy by congruence.
      ring.
    - intros j Hj. destruct (mask j) eqn:Hm.
      + now rewrite (Hkkt j Hj Hm).
      + rewrite nth_vsub, (Hza j Hj Hm), (Hzy j Hj Hm) by congruence. ring. }
  rewrite HB in H1.
  pose proof (vdot_self_nonneg (matvec A (vsub y a))) as HC.
  set (C := vdot (matvec A (vsub y a)) (matvec A (vsub y a))) in *.
  set (fy := residual A c y) in *. set (fa := residual A c a) in *.
  clearbody C fy fa. qc_lra.
Qed.

(** Along a direction of the kernel of [A] the residual is constant. *)
Lemma kernel_move y v t :
  List.length y = n -> List.length v = n -> matvec A v = zeros n ->
  residual A c (vadd y (vscale t v)) = residual A c y.
Proof.
  intros Hy Hv Hker.
  rewrite (residual_line n A c y v t A_square c_len Hy Hv).
  rewrite Hker, !vdot_zeros_l. ring.
Qed.

(** A face with one index is one point. *)
Lemma face_single_point mask j0 y :
  (j0 < n)%nat ->
  (forall j, (j < n)%nat -> j <> j0 -> mask j = false) ->
  in_face n total mask y -> y = vscale total (unit_vec n j0).
Proof.
  intros Hj0 Hoff (Hl & Hp & Hs & Hz).
  assert (Hy0 : nth j0 y 0 = total).
  { rewrite <- Hs, (vsum_sum_n n y Hl).
    symmetry. apply (sum_n_single (fun j => nth j y 0)); auto. }
  apply (vec_ext n); auto.
  - now rewrite length_vscale, length_unit_vec.
  - intros j Hj. rewrite nth_vscale, nth_unit_vec by assumption.
    destruct (Nat.eqb_spec j j0) as [->|Hne].
    + rewrite Hy0. ring.
    + rewrite (Hz j Hj (Hoff j Hj Hne)). ring.
Qed.

(** The best point of the boundary, once every smaller face has a
    minimiser. *)
Lemma best_boundary mask x0 :
  in_face n total mask x0 ->
  (forall j, (j < n)%nat -> mask j = true ->
     exists b, in_face n total (remove_index j mask) b /\
       forall y, in_face n total (remove_index j mask) y ->
         residual A c b <= residual A c y) ->
  forall m, (m <= n)%nat ->
  exists b, in_face n total mask b /\
    forall j, (j < m)%nat -> mask j = true ->
    forall y, in_face n total (remove_index j mask) y ->
      residual A c b <= residual A c y.
Proof.
  intros Hx0 Hsub. induction m as [|m IH]; intros Hm.
  - exists x0. split; auto. intros j Hj. lia.
  - destruct IH as (b & Hb & Hbest); [lia|].
    destruct (mask m) eqn:Hmask.
    + destruct (Hsub m) as (bm & Hbm & Hmin); [lia | exact Hmask |].
      destruct (Qclt_le_dec (residual A c bm) (residual A c b)) as [Hlt|Hle].
      * exists bm. split; [now apply (in_face_weaken n total mask m)|].
        intros j Hj Hmj y Hy.
        destruct (Nat.eq_dec j m) as [->|Hne]; [now apply Hmin|].
        assert (H : residual A c b <= residual A c y) by (apply (Hbest j); auto; lia).
        set (r1 := residual A c bm) in *. set (r2 := residual A c b) in *.
        set (r3 := residual A c y) in *. clearbody r1 r2 r3. qc_lra.
      * exists b. split; auto.
        intros j Hj Hmj y Hy.
        destruct (Nat.eq_dec j m) as [->|Hne].
        -- eapply Qcle_trans; [exact Hle | now apply Hmin].
        -- apply (Hbest j); auto. lia.
    + exists b. split; auto.
      intros j Hj Hmj y Hy.
      destruct (Nat.eq_dec j m) as [->|Hne]; [congruence|].
      apply (Hbest j); auto. lia.
Qed.

(** Every face with at least one index has a minimiser. *)
Lemma face_minimiser k :
  forall mask, count_mask n mask = S k ->
  exists x, in_face n total mask x /\
    forall y, in_face n total mask y -> residual A c x <= residual A c y.
Proof.
  induction k as [|k IH]; intros mask Hcount.
  - destruct (count_mask_pos n mask) as (j0 & Hj0 & Hm0); [lia|].
    assert (Hoff : forall j, (j < n)%nat -> j <> j0 -> mask j = false).
    { intros j Hj Hne.
      rewrite (count_mask_remove n mask j0 Hj0 Hm0) in Hcount.
      injection Hcount as Hcount.
      rewrite <- (remove_index_other j0 mask j Hne).
      now apply (count_mask_zero n). }
    exists (vscale total (unit_vec n j0)).
    split; [now apply in_face_vertex|].
    intros y Hy. rewrite (face_single_point mask j0 y Hj0 Hoff Hy). apply Qcle_refl.
  - assert (Hsub : forall j, (j < n)%nat -> mask j = true ->
              exists b, in_face n total (remove_index j mask) b /\
                forall y, in_face n total (remove_index j mask) y ->
                  residual A c b <= residual A c y).
    { intros j Hj Hm. apply IH.
      rewrite (count_mask_remove n mask j Hj Hm) in Hcount. now injection Hcount. }
    destruct (count_mask_pos n mask) as (j0 & Hj0 & Hm0); [lia|].
    destruct (Hsub j0 Hj0 Hm0) as (x0 & Hx0 & _).
    apply in_face_weaken in Hx0.
    destruct (best_boundary mask x0 Hx0 Hsub n (Nat.le_refl n)) as (b & Hb & Hbest).
    assert (Hboundary : forall y p j1,
              (j1 < n)%nat -> mask j1 = true ->
              in_face n total (remove_index j1 mask) p ->
              residual A c p <= residual A c y ->
              residual A c b <= residual A c y).
    { intros y p j1 Hj1 Hm1 Hp Hle.
      eapply Qcle_trans; [|exact Hle]. now apply (Hbest j1). }
    destruct (la_inv_cases (S n) (kkt_matrix n A mask)) as [[Kinv HK]|HK];
      [lia | apply kkt_square | |].
    + destruct (kkt_solution n A mask A_square c total c_len Kinv HK)
        as (a & lam & Ha & Hsa & Hza & Hkkt).
      assert (Hamin : forall y, in_face n total mask y ->
                residual A c a <= residual A c y).
      { intros y (Hl & _ & Hs & Hz).
        now apply (affine_minimiser mask a lam y). }
      destruct (exists_neg_or_all_nonneg (fun j => nth j a 0) n)
        as [(jn & Hjn & Hneg)|Hpos].
      * exists b. split; auto. intros y Hy.
        pose proof Hy as (Hl & Hp & Hs & Hz).
        assert (Hd : List.length (vsub a y) = n) by (rewrite length_vsub; congruence).
        destruct (move_in_face mask y (vsub a y) Hy Hd)
          as (t & j1 & Ht & Hj1 & Hm1 & Hface & Hstep).
        { rewrite vsum_vsub, Hsa, Hs by congruence. ring. }
        { intros j Hj Hm. rewrite nth_vsub, (Hza j Hj Hm), (Hz j Hj Hm) by congruence.
          ring. }
        { exists jn. split; auto. rewrite nth_vsub by congruence.
          pose proof (Hp jn Hjn). set (u := nth jn a 0) in *. set (w := nth jn y 0) in *.
          clearbody u w. qc_lra. }
        apply (Hboundary y _ j1 Hj1 Hm1 Hface).
        apply segment_decrease; auto.
        assert (Hdn : nth jn (vsub a y) 0 < 0).
        { rewrite nth_vsub by congruence.
          pose proof (Hp jn Hjn). set (u := nth jn a 0) in *. set (w := nth jn y 0) in *.
          clearbody u w. qc_lra. }
        pose proof (Hstep jn Hjn Hdn) as Hs1.
        rewrite nth_vsub in Hs1, Hdn by congruence.
        set (u := nth jn a 0) in *. set (w := nth jn y 0) in *. clearbody u w.
        destruct (Qclt_le_dec 1 t) as [Hbad|Hok]; [|exact Hok].
        exfalso. qc_nra.
      * exists a. split; auto. repeat split; auto.
    + destruct (kkt_kernel n A mask A_square HK) as (v & Hv & Hsv & Hzv & Hker & Hnz).
      { exists j0. split; auto. }
      assert (Hneg : exists j, (j < n)%nat /\ nth j v 0 < 0).
      { apply (sum_n_zero_negative (fun j => nth j v 0)); auto.
        now rewrite <- (vsum_sum_n n v Hv). }
      exists b. split; auto. intros y Hy.
      pose proof Hy as (Hl & _).
      destruct (move_in_face mask y v Hy Hv Hsv Hzv Hneg)
        as (t & j1 & Ht & Hj1 & Hm1 & Hface & _).
      apply (Hboundary y _ j1 Hj1 Hm1 Hface).
      rewrite kernel_move by assumption. apply Qcle_refl.
Qed.
End Minimiser.

(** The constrained least-squares problem has a solution. *)
Theorem least_squares_exists n A c :
  is_square n A -> List.length c = n -> 0 <= vsum c ->
  exists x, least_squares_fit A c x.
Proof.
  intros Hsq Hc Hsum. unfold least_squares_fit. rewrite Hc.
  destruct n as [|n].
  - exists []. split.
    + apply length_zero_iff_nil in Hc. subst c. repeat split. constructor.
    + intros y (Hy & _). apply length_zero_iff_nil in Hy. subst y. apply Qcle_refl.
  - destruct (face_minimiser (S n) A c (vsum c) Hsq Hc Hsum n (fun _ => true))
      as (x & Hx & Hmin); [apply count_mask_full|].
    exists x. split; [now apply feasible_in_face|].
    intros y Hy. now apply Hmin, feasible_in_face.
Qed.

(** * Evaluation of the cells *)

Lemma vec_eqb_eq (u v : vec) : vec_eqb u v = true -> u = v.
Proof.
  unfold vec_eqb. revert v.
  induction u as [|x u IH]; intros [|y v]; simpl; try discriminate; auto.
  rewrite andb_true_iff, Nat.eqb_eq. intros [Hl H].
  apply andb_true_iff in H as [Hxy H].
  apply Qc_eq_bool_correct in Hxy. subst y. f_equal.
  apply IH. rewrite andb_true_iff, Nat.eqb_eq. split; [lia | exact H].
Qed.

Lemma matrix_eqb_eq (A B : matrix) : matrix_eqb A B = true -> A = B.
Proof.
  unfold matrix_eqb. revert B.
  induction A as [|u A IH]; intros [|v B]; simpl; try discriminate; auto.
  rewrite andb_true_iff, Nat.eqb_eq. intros [Hl H].
  apply andb_true_iff in H as [Huv H].
  apply vec_eqb_eq in Huv. subst v. f_equal.
  apply IH. rewrite andb_true_iff, Nat.eqb_eq. split; [lia | exact H].
Qed.

Lemma result_is_eq (r : result matrix) (B : matrix) :
  result_is r B = true -> r = Ok B.
Proof.
  destruct r as [A|e]; simpl; [|discriminate].
  intros H. apply matrix_eqb_eq in H. now subst.
Qed.

Lemma matrix_ext n (A B : matrix) :
  is_square n A -> is_square n B ->
  (forall i j, (i < n)%nat -> (j < n)%nat -> entry A i j = entry B i j) -> A = B.
Proof.
  intros [HA HrA] [HB HrB] H. rewrite Forall_forall in HrA, HrB.
  apply (nth_ext A B [] []); [congruence|].
  intros i Hi. rewrite HA in Hi.
  apply (vec_ext n).
  - apply HrA, nth_In. lia.
  - apply HrB, nth_In. lia.
  - intros j Hj. now apply H.
Qed.

Lemma entry_identity n i j :
  (i < n)%nat -> (j < n)%nat -> entry (identity n) i j = if Nat.eqb j i then 1 else 0.
Proof.
  intros Hi Hj. unfold entry. now rewrite nth_identity, nth_unit_vec.
Qed.

Lemma identity_square n : is_square n (identity n).
Proof.
  split; [apply length_identity|]. apply Forall_forall. intros row Hin.
  unfold identity in Hin. apply in_map_iff in Hin as (i & <- & _).
  apply length_unit_vec.
Qed.

Lemma matvec_identity n v : List.length v = n -> matvec (identity n) v = v.
Proof.
  intros Hv. apply (vec_ext n); auto.
  - now rewrite length_matvec, length_identity.
  - intros i Hi. rewrite nth_matvec by now rewrite length_identity.
    now rewrite nth_identity, vdot_unit_l.
Qed.

Lemma pow2_pos q : (0 < 2 ^ q)%nat.
Proof. induction q; simpl; lia. Qed.

Lemma shot_total_delta (s : Z) j a n :
  shot_total (map (fun i => if Nat.eqb i j then s else 0%Z) (seq a n)) =
  if Nat.leb a j && Nat.ltb j (a + n) then s else 0%Z.
Proof.
  revert a. induction n as [|n IH]; intros a; simpl.
  - destruct (Nat.leb_spec a j), (Nat.ltb_spec j (a + 0)); simpl; auto; lia.
  - rewrite IH.
    destruct (Nat.eqb_spec a j), (Nat.leb_spec a j), (Nat.leb_spec (S a) j),
      (Nat.ltb_spec j (S a + n)), (Nat.ltb_spec j (a + S n)); simpl; lia.
Qed.

Lemma nth_identity_counts N shots j :
  (j < N)%nat ->
  nth j (identity_counts N shots) [] =
  map (fun i => if Nat.eqb i j then shots else 0%Z) (seq 0 N).
Proof.
  intros Hj. unfold identity_counts.
  rewrite (nth_map_in_range _ _ _ (seq 0 N) [] O) by now rewrite length_seq.
  now rewrite seq_nth.
Qed.

Lemma shot_total_identity_counts N shots counts :
  In counts (identity_counts N shots) -> shot_total counts = shots.
Proof.
  unfold identity_counts. intros Hin.
  apply in_map_iff in Hin as (j & <- & Hj). apply in_seq in Hj.
  rewrite shot_total_delta.
  destruct (Nat.leb_spec 0 j), (Nat.ltb_spec j (0 + N)); simpl; auto; lia.
Qed.

Lemma Qfloor_Z2Qc z : Qfloor (Z2Qc z) = z.
Proof.
  unfold Z2Qc. rewrite (Qfloor_comp _ _ (this_Q2Qc (inject_Z z))). apply Qfloor_Z.
Qed.

Lemma round_half_even_Z2Qc z : round_half_even (Z2Qc z) = z.
Proof.
  unfold round_half_even. rewrite Qfloor_Z2Qc.
  replace (Z2Qc z - Z2Qc z) with 0 by ring.
  reflexivity.
Qed.

(** * Names that no statement binds *)

Lemma is_bound_bind_names xs e x :
  is_bound (bind_names xs e) x = existsb (String.eqb x) xs || is_bound e x.
Proof. unfold is_bound, bind_names. simpl. apply existsb_app. Qed.

Lemma existsb_eqb_false x xs : ~ In x xs -> existsb (String.eqb x) xs = false.
Proof.
  intros H. destruct (existsb (String.eqb x) xs) eqn:E; auto.
  apply existsb_exists in E as (y & Hy & Heq). apply String.eqb_eq in Heq. now subst.
Qed.

Lemma bind_result_ok (A B : Type) (r : result A) (k : A -> result B) b :
  bind r k = Ok b -> exists a, r = Ok a /\ k a = Ok b.
Proof. destruct r as [a|e]; simpl; [eauto | discriminate]. Qed.

(** A statement leaves unbound every name that is not among its targets. *)
Lemma exec_keeps_unbound x s :
  forall e e', ~ In x (targets_of s) -> is_bound e x = false ->
  exec s e = Ok e' -> is_bound e' x = false.
Proof.
  induction s as [names|f globals|targets reads|reads|reads targets body IH]
    using stmt_nested_ind; intros e e' Hx He Hexec; simpl in *.
  - injection Hexec as <-. rewrite is_bound_bind_names, He.
    now rewrite existsb_eqb_false.
  - injection Hexec as <-. unfold is_bound, define in *. simpl.
    rewrite He, orb_false_r. apply String.eqb_neq. intros ->. apply Hx. now left.
  - apply bind_result_ok in Hexec as (_ & _ & Hexec). injection Hexec as <-.
    rewrite is_bound_bind_names, He. now rewrite existsb_eqb_false.
  - apply bind_result_ok in Hexec as (_ & _ & Hexec). now injection Hexec as <-.
  - apply bind_result_ok in Hexec as (_ & _ & Hexec).
    assert (Hstart : is_bound (bind_names targets e) x = false).
    { rewrite is_bound_bind_names, He.
      rewrite existsb_eqb_false; auto. intros Hin. apply Hx, in_or_app. now left. }
    assert (Hbody : ~ In x (flat_map targets_of body))
      by (intros Hin; apply Hx, in_or_app; now right).
    clear Hx He. revert Hexec Hstart Hbody. generalize (bind_names targets e).
    induction IH as [|s body Hs _ IHbody]; intros e0 Hexec Hstart Hbody.
    + now injection Hexec as <-.
    + apply bind_result_ok in Hexec as (e1 & H1 & Hexec).
      simpl in Hbody.
      apply (IHbody e1); auto.
      * apply (Hs e0 e1); auto. intros Hin. apply Hbody, in_or_app. now left.
      * intros Hin. apply Hbody, in_or_app. now right.
Qed.

Lemma exec_cell_keeps_unbound x c :
  forall e e', ~ In x (flat_map targets_of c) -> is_bound e x = false ->
  exec_cell c e = Ok e' -> is_bound e' x = false.
Proof.
  induction c as [|s c IH]; intros e e' Hx He Hexec; simpl in *.
  - now injection Hexec as <-.
  - apply bind_result_ok in Hexec as (e1 & H1 & Hexec).
    apply (IH e1); auto.
    + intros Hin. apply Hx, in_or_app. now right.
    + apply (exec_keeps_unbound x s e e1); auto.
      intros Hin. apply Hx, in_or_app. now left.
Qed.

Lemma run_cells_keeps_unbound x cells :
  forall e e', ~ In x (flat_map targets_of (flat_map snd cells)) ->
  is_bound e x = false ->
  run_cells cells e = Finished e' -> is_bound e' x = false.
Proof.
  induction cells as [|[k c] cells IH]; intros e e' Hx He Hrun; simpl in *.
  - now injection Hrun as <-.
  - destruct (exec_cell c e) as [e1|err] eqn:Hc; [|discriminate].
    rewrite flat_map_app in Hx.
    apply (IH e1); auto.
    + intros Hin. apply Hx, in_or_app. now right.
    + apply (exec_cell_keeps_unbound x c e e1); auto.
      intros Hin. apply Hx, in_or_app. now left.
Qed.

Lemma body_of_bind_names xs e x :
  In x xs -> body_of (funs (bind_names xs e)) x = [].
Proof.
  intros Hin. unfold bind_names. simpl.
  induction (funs e) as [|[g globals] fs IH]; simpl; auto.
  destruct (existsb (String.eqb g) xs) eqn:E; simpl; auto.
  destruct (String.eqb_spec g x) as [->|Hne]; auto.
  assert (H : existsb (String.eqb x) xs = true)
    by (apply existsb_exists; exists x; split; auto; apply String.eqb_refl).
  congruence.
Qed.

(** Whenever the plot cell runs in a namespace without [noisy_counts] it
    raises the [NameError]. *)
Lemma plot_cell_raises e :
  is_bound e "noisy_counts" = false ->
  exec_cell plot_cell e = Raise (NameError "noisy_counts").
Proof.
  intros H. unfold plot_cell. cbn [exec_cell exec bind].
  cbn [read_names]. rewrite !is_bound_bind_names.
  cbn [existsb String.eqb Ascii.eqb Bool.eqb orb].
  rewrite H, body_of_bind_names by now left.
  reflexivity.
Qed.

(** * Facts about the notebook's data *)

(** The calibration data recorded in the notebook give, through the
    builder, the matrix [M] that cells [In [6]] and [In [7]] spell out. *)
Lemma notebook_M_from_calibration :
  build_calibration_matrix 2 (map (dense (outcome_labels 2)) notebook_calibration) = Ok M.
Proof. apply result_is_eq. vm_compute. reflexivity. Qed.

(** The inverse that cell [In [7]] prints, as exact rationals. *)
Lemma Minv_value :
  Minv = Ok
    [ [Q2Qc (941677939237 # 923412438513); Q2Qc (-3431116921 # 307804146171);
       Q2Qc (-9115330763 # 923412438513); Q2Qc (97169237 # 923412438513)];
      [Q2Qc (-3046561663 # 307804146171); Q2Qc (104846782779 # 102601382057);
       Q2Qc (28918337 # 307804146171); Q2Qc (-3432461663 # 307804146171)];
      [Q2Qc (-3070109209 # 307804146171); Q2Qc (-416403 # 102601382057);
       Q2Qc (313693050791 # 307804146171); Q2Qc (-2783079209 # 307804146171)];
      [Q2Qc (84511892 # 923412438513); Q2Qc (-3303836036 # 307804146171);
       Q2Qc (-8638138108 # 923412438513); Q2Qc (941961891892 # 923412438513)] ].
Proof. apply result_is_eq. vm_compute. reflexivity. Qed.

Lemma M_square : is_square 4 M.
Proof. split; [reflexivity|]. repeat constructor. Qed.

(** The corrector on a column of the right length, in terms of the inverse. *)
Lemma count_corrector_column n A N c :
  (0 < n)%nat -> is_square n A -> la_inv A = Ok N -> List.length c = n ->
  count_corrector A (column c) = Ok (column (matvec N c)).
Proof.
  intros Hn Hsq HN Hc. unfold count_corrector. rewrite HN. simpl.
  destruct (la_inv_ok n A N Hsq HN) as (HNsq & _).
  now apply (np_dot_column n).
Qed.

Lemma M_column_stochastic : column_stochastic 4 M.
Proof.
  intros j Hj. destruct j as [|[|[|[|j]]]]; try lia;
    apply Qc_is_canon; vm_compute; reflexivity.
Qed.

Lemma M_dominant : dominant_by (dec4 9585) 4 M.
Proof.
  left. intros i Hi. destruct i as [|[|[|[|i]]]]; try lia;
    apply Qc_leb_true; vm_compute; reflexivity.
Qed.

Lemma vsum_map_Z2Qc counts : vsum (map Z2Qc counts) = Z2Qc (shot_total counts).
Proof.
  induction counts as [|c counts IH].
  - simpl. now rewrite Z2Qc_0.
  - change (vsum (map Z2Qc (c :: counts))) with (Z2Qc c + vsum (map Z2Qc counts)).
    change (shot_total (c :: counts)) with (c + shot_total counts)%Z.
    now rewrite IH, Z2Qc_add.
Qed.

Lemma vsum_counts_nonneg counts :
  Forall (fun c => (0 <= c)%Z) counts -> 0 <= vsum (map Z2Qc counts).
Proof.
  intros H. rewrite vsum_map_Z2Qc, <- Z2Qc_0.
  now apply Z2Qc_le, shot_total_nonneg.
Qed.

Lemma matvec_unit n A j :
  is_square n A -> (j < n)%nat -> matvec A (unit_vec n j) = col j A.
Proof.
  intros [HA Hrows] Hj. rewrite Forall_forall in Hrows.
  apply (vec_ext n).
  - now rewrite length_matvec.
  - now rewrite length_col.
  - intros i Hi. rewrite nth_matvec, nth_col by lia.
    rewrite vdot_comm, vdot_unit_l; [reflexivity|].
    apply Hrows, nth_In. lia.
Qed.

(** The inverse is unique: whatever pivots an elimination takes, a left
    inverse of [A] is the matrix that [la_inv] returns. *)
Lemma la_inv_unique n A N N' :
  is_square n A -> la_inv A = Ok N -> is_square n N' ->
  (forall v, List.length v = n -> matvec N' (matvec A v) = v) -> N' = N.
Proof.
  intros Hsq HN HN' Hleft.
  destruct (la_inv_ok n A N Hsq HN) as (HNsq & _ & Hright).
  apply (matrix_ext n); auto. intros i j Hi Hj.
  pose proof HNsq as [HNlen _]. pose proof HN' as [HN'len _].
  rewrite <- !nth_col by lia.
  rewrite <- (matvec_unit n N' j HN' Hj), <- (matvec_unit n N j HNsq Hj).
  f_equal.
  rewrite <- (Hright (unit_vec n j) (length_unit_vec n j)) at 1.
  apply Hleft. now rewrite length_matvec.
Qed.


(** The direct inverse on the counts [[0,100,0,0]]: a negative entry. *)
Lemma direct_inverse_negative_example :
  exists out,
    count_corrector M (column (map Z2Qc [0; 100; 0; 0]%Z)) = Ok (column out) /\
    nth 0 out 0 < 0.
Proof.
  eexists. split.
  - apply (count_corrector_column 4 M); [lia | exact M_square | exact Minv_value | reflexivity].
  - apply Qc_ltb_true. vm_compute. reflexivity.
Qed.

(** In binary64 the product of cell [In [6]] has no rounding error. *)
Lemma Cnoisy_float64_exact :
  Cnoisy_float64 = [4904.5; 101; 91.5; 4903]%float.
Proof. vm_compute. reflexivity. Qed.

(** The matrices that cells [In [13]] and [In [15]] print have columns that
    sum to 1.  The first was meant to be measured without noise, but
    [In [12]] passes the noise model of [In [3]] to the simulator: it is not
    the identity. *)
Lemma recorded_cal_matrices :
  column_stochastic 4 cal_matrix_In13 /\
  column_stochastic 4 cal_matrix_In15 /\
  cal_matrix_In13 <> identity 4.
Proof.
  split; [|split].
  - intros j Hj. destruct j as [|[|[|[|j]]]]; try lia;
      apply Qc_is_canon; vm_compute; reflexivity.
  - intros j Hj. destruct j as [|[|[|[|j]]]]; try lia;
      apply Qc_is_canon; vm_compute; reflexivity.
  - intros E. apply (f_equal (fun A => entry A 0 1)) in E.
    apply (f_equal this) in E. vm_compute in E. discriminate.
Qed.

(** Dominance that is not strict is not enough for the round trip: this
    matrix has columns that sum to 1 and a diagonal that equals the rest of
    its row and column, sends two different count vectors to the same noisy
    counts, and has no inverse. *)
Lemma weak_dominance_is_not_enough :
  column_stochastic 2 repeated_columns /\
  row_margin repeated_columns 0 = 0 /\ row_margin repeated_columns 1 = 0 /\
  noisy_counts_of repeated_columns [10; 0]%Z = noisy_counts_of repeated_columns [0; 10]%Z /\
  la_inv repeated_columns = Raise LinAlgError.
Proof.
  split; [|split; [|split; [|split]]].
  - intros j Hj. destruct j as [|[|j]]; try lia;
      apply Qc_is_canon; vm_compute; reflexivity.
  - apply Qc_is_canon. vm_compute. reflexivity.
  - apply Qc_is_canon. vm_compute. reflexivity.
  - vm_compute. reflexivity.
  - vm_compute. reflexivity.
Qed.

(** * [la.inv] in binary64 *)

Lemma halves_float64_exact : map (map float_to_Qc) halves_float64 = repeated_columns.
Proof.
  unfold halves_float64, repeated_columns. cbn [map].
  repeat (f_equal; try (apply Qc_is_canon; vm_compute; reflexivity)).
Qed.

Lemma repeated_columns_square : is_square 2 repeated_columns.
Proof. split; [reflexivity | repeat constructor]. Qed.



(** * The claims *)

(** [C1] Cell [In [6]] computes
    [M . [5000,0,0,5000]^t = [4904.5,101,91.5,4903]^t] exactly, and cell
    [In [8]], the inverse of [M] applied to that vector, gives a vector whose
    entries round to [5000,0,0,5000] (so within 1 of it). *)
Theorem C1_concrete_scenario :
  Cnoisy = Ok [ [Q2Qc (49045 # 10)]; [Z2Qc 101]; [Q2Qc (915 # 10)]; [Z2Qc 4903] ] /\
  exists Cm, Cmitigated = Ok Cm /\
    round_counts Cm = [ [5000]; [0]; [0]; [5000] ]%Z /\
    Forall2 (Forall2 (fun got want => (Z.abs (got - want) <= 1)%Z))
            (round_counts Cm) [ [5000]; [0]; [0]; [5000] ]%Z.
Proof.
  split.
  - apply result_is_eq. vm_compute. reflexivity.
  - exists Cideal. split; [|split].
    + apply result_is_eq. vm_compute. reflexivity.
    + vm_compute. reflexivity.
    + vm_compute. repeat constructor; discriminate.
Qed.

(** [C2] For [2^q] basis-state count distributions with positive shot
    totals the builder returns a [2^q] by [2^q] matrix whose column [j] is
    the counts of basis state [j] divided by their own total; every column
    sums to 1 and every entry lies in [[0,1]]. *)
Theorem C2_builder_column_stochastic q cal :
  valid_calibration q cal ->
  Forall (fun counts => (0 < shot_total counts)%Z) cal ->
  exists Mx,
    build_calibration_matrix q cal = Ok Mx /\
    is_square (2 ^ q) Mx /\
    (forall j, (j < 2 ^ q)%nat ->
       col j Mx = map (fun c => Z2Qc c / Z2Qc (shot_total (nth j cal []))) (nth j cal [])) /\
    column_stochastic (2 ^ q) Mx /\
    (forall i j, (i < 2 ^ q)%nat -> (j < 2 ^ q)%nat ->
       0 <= entry Mx i j /\ entry Mx i j <= 1).
Proof.
  intros [Hlen Hall] Hpos. rewrite Forall_forall in Hall, Hpos.
  set (N := (2 ^ q)%nat) in *.
  set (f := fun counts : list Z => map (fun c => Z2Qc c / Z2Qc (shot_total counts)) counts).
  assert (Hbuild : build_calibration_matrix q cal = Ok (columns_to_matrix N (map f cal))).
  { unfold build_calibration_matrix. fold N.
    replace (Nat.ltb (List.length cal) N) with false by (symmetry; apply Nat.ltb_ge; lia).
    rewrite normalise_all_ok; [reflexivity|].
    apply Forall_forall. intros counts Hin. specialize (Hpos counts Hin). lia. }
  assert (Hnth : forall j, (j < N)%nat -> nth j (map f cal) [] = f (nth j cal [])).
  { intros j Hj. apply nth_map_in_range. lia. }
  assert (Hin : forall j, (j < N)%nat -> In (nth j cal []) cal)
    by (intros j Hj; apply nth_In; lia).
  assert (Hcol : forall j, (j < N)%nat ->
            col j (columns_to_matrix N (map f cal)) = f (nth j cal [])).
  { intros j Hj. rewrite col_columns_to_matrix; auto.
    rewrite (Hnth j Hj). unfold f. rewrite length_map.
    now destruct (Hall _ (Hin j Hj)). }
  exists (columns_to_matrix N (map f cal)).
  split; [exact Hbuild|]. split; [apply columns_to_matrix_square|].
  split; [exact Hcol|]. split.
  - intros j Hj. rewrite (Hcol j Hj). unfold f. rewrite vsum_scaled_counts.
    specialize (Hpos _ (Hin j Hj)).
    field. intros E. apply Z2Qc_lt in Hpos. rewrite Z2Qc_0, E in Hpos. discriminate.
  - intros i j Hi Hj.
    rewrite entry_columns_to_matrix, (Hnth j Hj) by assumption. unfold f.
    destruct (Hall _ (Hin j Hj)) as [Hl Hnn]. specialize (Hpos _ (Hin j Hj)).
    rewrite (nth_map_in_range _ _ _ (nth j cal []) 0 0%Z) by lia.
    assert (Hc : In (nth i (nth j cal []) 0%Z) (nth j cal [])) by (apply nth_In; lia).
    apply Qcdiv_bounds.
    + rewrite <- Z2Qc_0. now apply Z2Qc_lt.
    + rewrite <- Z2Qc_0. apply Z2Qc_le. rewrite Forall_forall in Hnn. now apply Hnn.
    + apply Z2Qc_le. now apply shot_total_bound.
Qed.

Lemma C2_witness :
  exists Mx,
    build_calibration_matrix 1 [ [9; 1]; [2; 8] ]%Z = Ok Mx /\
    is_square 2 Mx /\
    (forall j, (j < 2)%nat ->
       col j Mx = map (fun c => Z2Qc c / Z2Qc (shot_total (nth j [ [9; 1]; [2; 8] ]%Z [])))
                      (nth j [ [9; 1]; [2; 8] ]%Z [])) /\
    column_stochastic 2 Mx /\
    (forall i j, (i < 2)%nat -> (j < 2)%nat -> 0 <= entry Mx i j /\ entry Mx i j <= 1).
Proof.
  apply (C2_builder_column_stochastic 1 [ [9; 1]; [2; 8] ]%Z).
  - split; [reflexivity|].
    repeat constructor; simpl; lia.
  - repeat constructor.
Defined.

(** [C3] For the identity noise process, where all shots of basis state
    [j] land on outcome [j], the builder returns the identity matrix, and the
    direct-inverse corrector with that matrix returns every vector of noisy
    counts unchanged, also after rounding. *)
Theorem C3_identity_noise q shots (counts : list Z) :
  (0 < shots)%Z -> List.length counts = (2 ^ q)%nat ->
  build_calibration_matrix q (identity_counts (2 ^ q) shots) = Ok (identity (2 ^ q)) /\
  count_corrector (identity (2 ^ q)) (column (map Z2Qc counts)) =
    Ok (column (map Z2Qc counts)) /\
  round_counts (column (map Z2Qc counts)) = map (fun c => c :: nil) counts.
Proof.
  intros Hshots Hlen. set (N := (2 ^ q)%nat) in *.
  assert (HN : (0 < N)%nat) by apply pow2_pos.
  split; [|split].
  - unfold build_calibration_matrix. fold N.
    replace (Nat.ltb (List.length (identity_counts N shots)) N) with false.
    2:{ symmetry. apply Nat.ltb_ge. unfold identity_counts.
        now rewrite length_map, length_seq. }
    rewrite normalise_all_ok.
    2:{ apply Forall_forall. intros c Hc.
        rewrite (shot_total_identity_counts N shots c Hc). lia. }
    simpl. f_equal.
    apply (matrix_ext N); auto using columns_to_matrix_square, identity_square.
    intros i j Hi Hj. rewrite entry_columns_to_matrix, entry_identity by assumption.
    rewrite (nth_map_in_range _ _ _ (identity_counts N shots) [] [])
      by (unfold identity_counts; now rewrite length_map, length_seq).
    rewrite nth_identity_counts by assumption.
    rewrite shot_total_delta.
    replace (Nat.leb 0 j && Nat.ltb j (0 + N)) with true.
    2:{ symmetry. apply andb_true_iff. split; [now apply Nat.leb_le; lia|].
        apply Nat.ltb_lt. lia. }
    rewrite map_map.
    rewrite (nth_map_in_range _ _ _ (seq 0 N) 0 O) by now rewrite length_seq.
    rewrite seq_nth by assumption. simpl.
    assert (Hs : Z2Qc shots <> 0).
    { intros E. apply Z2Qc_lt in Hshots. rewrite Z2Qc_0, E in Hshots. discriminate. }
    rewrite (Nat.eqb_sym j i).
    destruct (Nat.eqb i j); [now field|].
    rewrite Z2Qc_0. now field.
  - unfold count_corrector.
    destruct (la_inv_regular N (identity N) HN (identity_square N)) as [Ninv HNinv].
    { intros v Hv. now rewrite matvec_identity. }
    rewrite HNinv. simpl.
    destruct (la_inv_ok N (identity N) Ninv (identity_square N) HNinv) as (Hsq & Hleft & _).
    rewrite (np_dot_column N Ninv) by (auto; now rewrite length_map).
    do 2 f_equal.
    rewrite <- (matvec_identity N (map Z2Qc counts)) at 1 by now rewrite length_map.
    apply Hleft. now rewrite length_map.
  - unfold round_counts, column. rewrite !map_map. apply map_ext. intros c.
    simpl. now rewrite round_half_even_Z2Qc.
Qed.

Lemma C3_witness :
  build_calibration_matrix 2 (identity_counts (2 ^ 2) 10000) = Ok (identity (2 ^ 2)) /\
  count_corrector (identity (2 ^ 2)) (column (map Z2Qc [4059; 900; 925; 4116]%Z)) =
    Ok (column (map Z2Qc [4059; 900; 925; 4116]%Z)) /\
  round_counts (column (map Z2Qc [4059; 900; 925; 4116]%Z)) =
    map (fun c => c :: nil) [4059; 900; 925; 4116]%Z.
Proof.
  apply (C3_identity_noise 2 10000 [4059; 900; 925; 4116]%Z); [lia | reflexivity].
Defined.

(** [C4] For a square matrix whose columns sum to 1 and non-negative
    integer noisy counts of matching length, the least-squares path returns
    a vector, and every vector it can return has non-negative entries that
    sum to the total of the noisy counts; so it does on the notebook's [M]
    and the counts [[0,100,0,0]], where the direct inverse gives a negative
    entry. *)
Theorem C4_least_squares_conservation n (A : matrix) (counts : list Z) :
  is_square n A -> column_stochastic n A ->
  List.length counts = n -> Forall (fun c => (0 <= c)%Z) counts ->
  (exists x, least_squares_fit A (map Z2Qc counts) x) /\
  (forall x, least_squares_fit A (map Z2Qc counts) x ->
     Forall (fun v => 0 <= v) x /\ vsum x = vsum (map Z2Qc counts)) /\
  (exists out x,
     count_corrector M (column (map Z2Qc [0; 100; 0; 0]%Z)) = Ok (column out) /\
     nth 0 out 0 < 0 /\
     least_squares_fit M (map Z2Qc [0; 100; 0; 0]%Z) x /\
     Forall (fun v => 0 <= v) x /\ vsum x = vsum (map Z2Qc [0; 100; 0; 0]%Z)).
Proof.
  intros Hsq _ Hlen Hnn. split; [|split].
  - apply (least_squares_exists n); auto.
    + now rewrite length_map.
    + now apply vsum_counts_nonneg.
  - intros x [(_ & Hpos & Hsum) _]. split; assumption.
  - destruct direct_inverse_negative_example as (out & Hout & Hneg).
    destruct (least_squares_exists 4 M (map Z2Qc [0; 100; 0; 0]%Z) M_square)
      as [x Hx]; [reflexivity | |].
    { apply vsum_counts_nonneg. repeat constructor; lia. }
    exists out, x. split; [exact Hout|]. split; [exact Hneg|]. split; [exact Hx|].
    destruct Hx as [(_ & Hpos & Hsum) _]. split; assumption.
Qed.

Lemma C4_witness :
  (exists x, least_squares_fit M (map Z2Qc [4059; 900; 925; 4116]%Z) x) /\
  (forall x, least_squares_fit M (map Z2Qc [4059; 900; 925; 4116]%Z) x ->
     Forall (fun v => 0 <= v) x /\ vsum x = vsum (map Z2Qc [4059; 900; 925; 4116]%Z)) /\
  (exists out x,
     count_corrector M (column (map Z2Qc [0; 100; 0; 0]%Z)) = Ok (column out) /\
     nth 0 out 0 < 0 /\
     least_squares_fit M (map Z2Qc [0; 100; 0; 0]%Z) x /\
     Forall (fun v => 0 <= v) x /\ vsum x = vsum (map Z2Qc [0; 100; 0; 0]%Z)).
Proof.
  apply (C4_least_squares_conservation 4 M [4059; 900; 925; 4116]%Z).
  - exact M_square.
  - exact M_column_stochastic.
  - reflexivity.
  - repeat constructor; lia.
Defined.

(** [C5, as amended] Round trip.  For a square matrix [A] whose columns sum to 1 and
    which is diagonally dominant with a margin [g > 0] (by rows or by
    columns), and non-negative integer counts [x] with total [S > 0]: the
    direct-inverse corrector, applied to [round(A . x)], returns a vector
    [x'] whose distance to [x], relative to [S], is at most
    [n / (2 g S)] in every entry; that tolerance decreases as [S] grows and
    gets below every positive bound. *)
Theorem C5_round_trip n (A : matrix) g (x : list Z) (S : Z) :
  (0 < n)%nat -> is_square n A -> column_stochastic n A ->
  0 < g -> dominant_by g n A ->
  List.length x = n -> Forall (fun c => (0 <= c)%Z) x ->
  shot_total x = S -> (0 < S)%Z ->
  exists x',
    count_corrector A (column (map Z2Qc (noisy_counts_of A x))) = Ok (column x') /\
    List.length x' = n /\
    (forall i, (i < n)%nat ->
       Qcabs (nth i x' 0 - Z2Qc (nth i x 0%Z)) / Z2Qc S <= tolerance n g S) /\
    (forall S', (S <= S')%Z -> tolerance n g S' <= tolerance n g S) /\
    (forall eps, 0 < eps ->
       exists S0, (0 < S0)%Z /\ forall S', (S0 <= S')%Z -> tolerance n g S' <= eps).
Proof.
  intros Hn Hsq _ Hg Hdom Hx _ _ HS.
  destruct (la_inv_regular n A Hn Hsq) as [N HN].
  { intros v Hv Hz. now apply (dominant_regular n A g). }
  destruct (la_inv_ok n A N Hsq HN) as (HNsq & Hleft & Hright).
  pose proof Hsq as [HA _]. pose proof HNsq as [HNlen _].
  set (y := map Z2Qc x).
  set (c := map Z2Qc (noisy_counts_of A x)).
  assert (Hy : List.length y = n) by (unfold y; now rewrite length_map).
  assert (Hc : List.length c = n).
  { unfold c, noisy_counts_of. now rewrite !length_map, length_matvec. }
  exists (matvec N c).
  split; [now apply (count_corrector_column n)|].
  split; [now rewrite length_matvec|].
  split; [|split].
  - intros i Hi.
    set (e := vsub (matvec N c) y).
    assert (He : List.length e = n).
    { unfold e. rewrite length_vsub; rewrite length_matvec; congruence. }
    assert (Hei : nth i e 0 = nth i (matvec N c) 0 - Z2Qc (nth i x 0%Z)).
    { unfold e. rewrite nth_vsub by (rewrite length_matvec; congruence).
      unfold y. now rewrite (nth_map_in_range _ _ _ x 0 0%Z) by lia. }
    assert (HAe : forall k, (k < n)%nat ->
              Qcabs (nth k (matvec A e) 0) <= Q2Qc (1 # 2)).
    { intros k Hk. unfold e.
      rewrite matvec_vsub by (rewrite length_matvec; congruence).
      rewrite (Hright c Hc).
      rewrite nth_vsub by (rewrite length_matvec; congruence).
      unfold c, noisy_counts_of. rewrite map_map. fold y.
      rewrite (nth_map_in_range _ _ _ (matvec A y) 0 0)
        by (rewrite length_matvec; lia).
      apply round_half_even_error. }
    pose proof (dominant_bound n A g e Hsq Hg He i Hdom Hi) as Hb.
    assert (Hsum : sum_n (fun k => Qcabs (nth k (matvec A e) 0)) n <=
                   Z2Qc (Z.of_nat n) * Q2Qc (1 # 2)).
    { rewrite <- sum_n_const. now apply sum_n_le. }
    rewrite <- Hei.
    pose proof (tolerance_spec n g S Hg HS) as E.
    apply Qcdiv_le_iff; [now apply Z2Qc_pos|].
    apply Z2Qc_pos in HS.
    assert (Hh : Q2Qc (1 # 2) + Q2Qc (1 # 2) = 1) by now apply Qc_is_canon.
    pose proof (Qcabs_nonneg' (nth i e 0)) as Ha.
    set (T := tolerance n g S) in *. set (s := Z2Qc S) in *.
    set (m := Z2Qc (Z.of_nat n)) in *. set (a := Qcabs (nth i e 0)) in *.
    set (h := Q2Qc (1 # 2)) in *.
    set (l1 := sum_n (fun k => Qcabs (nth k (matvec A e) 0)) n) in *.
    clearbody T s m a h l1.
    destruct (Qclt_le_dec (T * s) a) as [Hlt|Hle]; [|exact Hle].
    exfalso.
    assert (H1 : (T * s) * g < a * g) by qc_nra.
    assert (H2 : m * h + m * h = m) by (rewrite <- Qcmult_plus_distr_r, Hh; ring).
    qc_lra.
  - intros S' HSS. now apply tolerance_antitone.
  - intros eps Heps. now apply tolerance_vanishes.
Qed.

Lemma C5_witness :
  exists x',
    count_corrector M (column (map Z2Qc (noisy_counts_of M [5000; 0; 0; 5000]%Z))) =
      Ok (column x') /\
    List.length x' = 4%nat /\
    (forall i, (i < 4)%nat ->
       Qcabs (nth i x' 0 - Z2Qc (nth i [5000; 0; 0; 5000]%Z 0%Z)) / Z2Qc 10000 <=
       tolerance 4 (dec4 9585) 10000) /\
    (forall S', (10000 <= S')%Z ->
       tolerance 4 (dec4 9585) S' <= tolerance 4 (dec4 9585) 10000) /\
    (forall eps, 0 < eps ->
       exists S0, (0 < S0)%Z /\
         forall S', (S0 <= S')%Z -> tolerance 4 (dec4 9585) S' <= eps).
Proof.
  apply (C5_round_trip 4 M (dec4 9585) [5000; 0; 0; 5000]%Z 10000).
  - lia.
  - exact M_square.
  - exact M_column_stochastic.
  - reflexivity.
  - exact M_dominant.
  - reflexivity.
  - repeat constructor; lia.
  - reflexivity.
  - lia.
Defined.

(** [C5, as stated] fails: this matrix has columns that sum to 1 and is
    diagonally dominant, every diagonal entry being equal to the rest of
    its row and of its column; it sends the counts [[S, 0]] and [[0, S]],
    which differ by [S], to the same noisy counts, and the direct-inverse
    corrector returns no vector for them: [la.inv] raises [LinAlgError], in
    exact arithmetic and in binary64. *)
Lemma C5_counterexample :
  is_square 2 repeated_columns /\
  column_stochastic 2 repeated_columns /\
  row_margin repeated_columns 0 = 0 /\ row_margin repeated_columns 1 = 0 /\
  col_margin repeated_columns 0 = 0 /\ col_margin repeated_columns 1 = 0 /\
  dominant_by 0 2 repeated_columns /\
  (forall S : Z,
     noisy_counts_of repeated_columns [S; 0%Z] = noisy_counts_of repeated_columns [0%Z; S]) /\
  Forall (fun c => (0 <= c)%Z) [10; 0]%Z /\ shot_total [10; 0]%Z = 10%Z /\
  count_corrector repeated_columns
    (column (map Z2Qc (noisy_counts_of repeated_columns [10; 0]%Z))) = Raise LinAlgError /\
  map (map float_to_Qc) halves_float64 = repeated_columns /\
  la_inv_error_float64 halves_float64 = Some LinAlgError.
Proof.
  assert (Hrow : row_margin repeated_columns 0 = 0 /\ row_margin repeated_columns 1 = 0)
    by (split; apply Qc_is_canon; vm_compute; reflexivity).
  split; [exact repeated_columns_square|].
  split.
  { intros j Hj. destruct j as [|[|j]]; try lia;
      apply Qc_is_canon; vm_compute; reflexivity. }
  split; [apply Hrow|]. split; [apply Hrow|].
  split; [apply Qc_is_canon; vm_compute; reflexivity|].
  split; [apply Qc_is_canon; vm_compute; reflexivity|].
  split.
  { left. intros i Hi. destruct Hrow as [H0 H1].
    destruct i as [|[|i]]; try lia; [rewrite H0 | rewrite H1]; apply Qcle_refl. }
  split.
  { intros S. unfold noisy_counts_of, repeated_columns.
    cbn [matvec map vdot]. rewrite Z2Qc_0.
    f_equal; [|f_equal]; f_equal; ring. }
  split; [repeat constructor; lia|]. split; [reflexivity|].
  split; [vm_compute; reflexivity|].
  split; [exact halves_float64_exact|].
  vm_compute. reflexivity.
Qed.







(** [C8] The builder raises [InvalidInput], and returns no matrix, when a
    supplied count distribution has a shot total of zero or when fewer than
    [2^q] distributions are supplied. *)
Theorem C8_builder_invalid_input q cal :
  Exists (fun counts => shot_total counts = 0%Z) cal \/ (List.length cal < 2 ^ q)%nat ->
  build_calibration_matrix q cal = Raise InvalidInput.
Proof.
  intros H. unfold build_calibration_matrix.
  destruct (Nat.ltb_spec (List.length cal) (2 ^ q)) as [Hlt|Hge]; [reflexivity|].
  destruct H as [H|H]; [|lia].
  now rewrite (normalise_all_zero cal H).
Qed.

Lemma C8_witness :
  build_calibration_matrix 1 [ [9; 1]; [0; 0] ]%Z = Raise InvalidInput.
Proof.
  apply C8_builder_invalid_input. left.
  apply Exists_cons_tl, Exists_cons_hd. reflexivity.
Defined.

(** [C9] The inverse of the notebook's [M] has a negative entry off the
    diagonal, in row 0 and column 1; so for the non-negative counts
    [t * e_1], with [t > 0], the correction of cell [In [8]] is the plain
    product with the inverse and its first entry is negative: nothing clamps
    or rounds it. *)
Theorem C9_negative_entries (t : Qc) :
  0 < t ->
  exists N,
    Minv = Ok N /\
    entry N 0 1 < 0 /\
    count_corrector M (column [0; t; 0; 0]) = Ok (column (matvec N [0; t; 0; 0])) /\
    nth 0 (matvec N [0; t; 0; 0]) 0 < 0.
Proof.
  intros Ht. eexists. split; [exact Minv_value|].
  match goal with |- entry ?N0 _ _ < _ /\ _ => set (N := N0) end.
  assert (Hneg : entry N 0 1 < 0) by (apply Qc_ltb_true; vm_compute; reflexivity).
  split; [exact Hneg|]. split.
  - apply (count_corrector_column 4 M N); [lia | exact M_square | exact Minv_value | reflexivity].
  - unfold entry in Hneg. subst N. cbn [nth matvec map vdot] in *.
    match goal with H : ?a < 0 |- _ => set (a01 := a) in * end.
    match goal with |- ?a00 * 0 + _ < 0 =>
      replace (a00 * 0 + (a01 * t + _)) with (a01 * t) by ring end.
    clearbody a01. qc_nra.
Qed.

Lemma C9_witness :
  exists N,
    Minv = Ok N /\
    entry N 0 1 < 0 /\
    count_corrector M (column [0; Z2Qc 100; 0; 0]) =
      Ok (column (matvec N [0; Z2Qc 100; 0; 0])) /\
    nth 0 (matvec N [0; Z2Qc 100; 0; 0]) 0 < 0.
Proof.
  apply (C9_negative_entries (Z2Qc 100)). reflexivity.
Defined.

(** [C10] Running the cells in order stops in cell [In [18]] with
    [NameError: name 'noisy_counts' is not defined]: no statement of the
    notebook binds that name, every earlier cell runs through, and
    [mitigated_counts], bound by then, is never plotted.  The plot cell
    raises the same error after any run of cells of the notebook, in any
    order. *)
Theorem C10_plot_raises_NameError :
  ~ In "noisy_counts"%string (flat_map targets_of (flat_map snd notebook)) /\
  (exists e,
     run_cells notebook builtins = Stopped 18%nat (NameError "noisy_counts") e /\
     run_cells (firstn 17%nat notebook) builtins = Finished e /\
     is_bound e "mitigated_counts" = true /\
     is_bound e "noisy_counts" = false) /\
  (forall cells e,
     incl cells notebook -> run_cells cells builtins = Finished e ->
     exec_cell plot_cell e = Raise (NameError "noisy_counts")).
Proof.
  assert (Hnever : ~ In "noisy_counts"%string
                     (flat_map targets_of (flat_map snd notebook)))
    by (vm_compute; intuition discriminate).
  split; [exact Hnever|]. split.
  - eexists. split; [vm_compute; reflexivity|].
    split; [vm_compute; reflexivity|].
    split; vm_compute; reflexivity.
  - intros cells e Hincl Hrun. apply plot_cell_raises.
    apply (run_cells_keeps_unbound "noisy_counts" cells builtins e); auto.
    intros Hin. apply Hnever.
    apply in_flat_map in Hin as (s & Hs & Hx).
    apply in_flat_map in Hs as (cell & Hcell & Hs).
    apply in_flat_map. exists s. split; auto.
    apply in_flat_map. exists cell. split; auto.
Qed.

Lemma C10_witness :
  exec_cell plot_cell
    (match run_cells (firstn 17%nat notebook) builtins with
     | Finished e => e
     | Stopped _ _ e => e
     end) = Raise (NameError "noisy_counts").
Proof.
  destruct C10_plot_raises_NameError as (_ & _ & H).
  apply (H (firstn 17%nat notebook)).
  - intros cell Hcell. rewrite <- (firstn_skipn 17 notebook).
    apply in_or_app. now left.
  - vm_compute. reflexivity.
Defined.

(** * Further properties of the code *)

(** ** More on [np_dot], [la_inv] and the corrector *)

Lemma np_dot_ok (A B : list (list Qc)) :
  Forall (fun row => List.length row = List.length B) A ->
  np_dot A B =
  Ok (map (fun row => map (fun j => vdot row (col j B)) (seq 0 (ncols B))) A).
Proof.
  intros H. unfold np_dot.
  replace (forallb _ A) with true; [reflexivity|].
  symmetry. apply forallb_forall. intros row Hin. apply Nat.eqb_eq.
  rewrite Forall_forall in H. now apply H.
Qed.

Lemma ncols_square n (A : list (list Qc)) :
  (0 < n)%nat -> is_square n A -> ncols A = n.
Proof.
  intros Hn [HA Hrows]. unfold ncols.
  destruct A as [|row A]; [simpl in HA; lia|].
  simpl. now inversion Hrows.
Qed.

Lemma np_dot_square_entries n (A B : list (list Qc)) :
  (0 < n)%nat -> is_square n A -> is_square n B ->
  exists P, np_dot A B = Ok P /\ is_square n P /\
    forall i j, (i < n)%nat -> (j < n)%nat ->
      entry P i j = nth i (matvec A (col j B)) 0.
Proof.
  intros Hn HAsq HBsq. pose proof HAsq as [HA HrA]. pose proof HBsq as [HB HrB].
  rewrite np_dot_ok by (rewrite HB; exact HrA).
  rewrite (ncols_square n B Hn HBsq).
  eexists. split; [reflexivity|]. split.
  - split; [now rewrite length_map|].
    apply Forall_forall. intros row Hin. apply in_map_iff in Hin as (r & <- & _).
    now rewrite length_map, length_seq.
  - intros i j Hi Hj. unfold entry.
    rewrite (nth_map_in_range _ _ _ A [] []) by lia.
    rewrite (nth_map_in_range _ _ _ (seq 0 n) 0 O) by now rewrite length_seq.
    rewrite seq_nth by assumption. simpl.
    now rewrite nth_matvec by lia.
Qed.

(** [X9] The identity matrix is neutral for [np.dot] on both sides. *)
Theorem X9_np_dot_identity n (A : list (list Qc)) :
  (0 < n)%nat -> is_square n A ->
  np_dot (identity n) A = Ok A /\ np_dot A (identity n) = Ok A.
Proof.
  intros Hn Hsq. pose proof Hsq as [HA _]. split.
  - destruct (np_dot_square_entries n (identity n) A Hn (identity_square n) Hsq)
      as (P & -> & HPsq & Hentry).
    f_equal. apply (matrix_ext n); auto.
    intros i j Hi Hj. rewrite (Hentry i j Hi Hj).
    rewrite matvec_identity by now rewrite length_col.
    now rewrite nth_col by lia.
  - destruct (np_dot_square_entries n A (identity n) Hn Hsq (identity_square n))
      as (P & -> & HPsq & Hentry).
    f_equal. apply (matrix_ext n); auto.
    intros i j Hi Hj. rewrite (Hentry i j Hi Hj).
    rewrite <- (matvec_unit n (identity n) j (identity_square n) Hj).
    rewrite (matvec_identity n (unit_vec n j) (length_unit_vec n j)).
    rewrite (matvec_unit n A j Hsq Hj).
    now rewrite nth_col by lia.
Qed.

Lemma X9_witness :
  np_dot (identity 4) M = Ok M /\ np_dot M (identity 4) = Ok M.
Proof.
  apply (X9_np_dot_identity 4 M); [lia | exact M_square].
Defined.

(** [X10] On a square matrix that is diagonally dominant with a margin
    [g > 0], [la.inv] does not raise, and the correction is stable: every
    mitigated entry is, in absolute value, at most the sum of the absolute
    noisy counts divided by [g]. *)
Theorem X10_dominant_mitigation_stable n (A : list (list Qc)) g (c : list Qc) :
  (0 < n)%nat -> is_square n A -> 0 < g -> dominant_by g n A ->
  List.length c = n ->
  exists y, count_corrector A (column c) = Ok (column y) /\
    List.length y = n /\
    forall i, (i < n)%nat ->
      g * Qcabs (nth i y 0) <= sum_n (fun k => Qcabs (nth k c 0)) n.
Proof.
  intros Hn Hsq Hg Hdom Hc.
  destruct (la_inv_regular n A Hn Hsq) as [N HN].
  { intros v Hv Hz. now apply (dominant_regular n A g). }
  destruct (la_inv_ok n A N Hsq HN) as ([HNlen _] & _ & Hright).
  exists (matvec N c). split; [|split].
  - now apply (count_corrector_column n).
  - now rewrite length_matvec.
  - intros i Hi.
    pose proof (dominant_bound n A g (matvec N c) Hsq Hg) as Hb.
    rewrite Hright in Hb by assumption.
    apply Hb; auto. now rewrite length_matvec.
Qed.

Lemma X10_witness :
  exists y, count_corrector M (column [Z2Qc 4059; Z2Qc 900; Z2Qc 925; Z2Qc 4116]) =
            Ok (column y) /\
    List.length y = 4%nat /\
    forall i, (i < 4)%nat ->
      dec4 9585 * Qcabs (nth i y 0) <=
      sum_n (fun k => Qcabs (nth k [Z2Qc 4059; Z2Qc 900; Z2Qc 925; Z2Qc 4116] 0)) 4.
Proof.
  apply (X10_dominant_mitigation_stable 4 M (dec4 9585)).
  - lia.
  - exact M_square.
  - apply Qc_ltb_true. vm_compute. reflexivity.
  - exact M_dominant.
  - reflexivity.
Defined.

(** ** Reading a name that nothing binds *)

Lemma bind_result_raise (A B : Type) (r : result A) (k : A -> result B) err :
  bind r k = Raise err -> r = Raise err \/ exists a, r = Ok a /\ k a = Raise err.
Proof.
  destruct r as [a|e]; simpl; intros H; [right; eauto | left].
  now injection H as ->.
Qed.

Lemma is_bound_define f globals e x :
  is_bound (define f globals e) x = String.eqb x f || is_bound e x.
Proof. reflexivity. Qed.

(** No statement unbinds a name. *)
Lemma exec_keeps_bound x s :
  forall e e', is_bound e x = true -> exec s e = Ok e' -> is_bound e' x = true.
Proof.
  induction s as [names|f globals|targets reads|reads|reads targets body IH]
    using stmt_nested_ind; intros e e' He Hexec; simpl in *.
  - injection Hexec as <-. rewrite is_bound_bind_names, He. apply orb_true_r.
  - injection Hexec as <-. rewrite is_bound_define, He. apply orb_true_r.
  - apply bind_result_ok in Hexec as (_ & _ & Hexec). injection Hexec as <-.
    rewrite is_bound_bind_names, He. apply orb_true_r.
  - apply bind_result_ok in Hexec as (_ & _ & Hexec). now injection Hexec as <-.
  - apply bind_result_ok in Hexec as (_ & _ & Hexec).
    assert (Hstart : is_bound (bind_names targets e) x = true)
      by (rewrite is_bound_bind_names, He; apply orb_true_r).
    clear He. revert Hexec Hstart. generalize (bind_names targets e).
    induction IH as [|s body Hs _ IHbody]; intros e0 Hexec Hstart.
    + now injection Hexec as <-.
    + apply bind_result_ok in Hexec as (e1 & H1 & Hexec).
      apply (IHbody e1); auto. now apply (Hs e0 e1).
Qed.

Lemma lookup_all_raise e xs err :
  lookup_all e xs = Raise err -> exists x, err = NameError x /\ is_bound e x = false.
Proof.
  induction xs as [|y xs IH]; simpl; [discriminate|].
  destruct (is_bound e y) eqn:Hy; auto.
  intros H. injection H as <-. eauto.
Qed.

Lemma read_names_raise e xs err :
  read_names e xs = Raise err -> exists x, err = NameError x /\ is_bound e x = false.
Proof.
  induction xs as [|y xs IH]; simpl; [discriminate|].
  destruct (is_bound e y) eqn:Hy.
  - intros H. apply bind_result_raise in H as [H|(_ & _ & H)]; auto.
    now apply lookup_all_raise in H.
  - intros H. injection H as <-. eauto.
Qed.

(** Reading a name that is not bound raises. *)
Lemma read_names_unbound e xs x :
  In x xs -> is_bound e x = false -> exists err, read_names e xs = Raise err.
Proof.
  induction xs as [|y xs IH]; simpl; [tauto|].
  intros [->|Hin] Hx.
  - rewrite Hx. eauto.
  - destruct (is_bound e y); [|eauto].
    destruct (lookup_all e (body_of (funs e) y)) as [[]|err]; simpl; eauto.
Qed.

Lemma unbound_before e e' x :
  (forall y, is_bound e y = true -> is_bound e' y = true) ->
  is_bound e' x = false -> is_bound e x = false.
Proof.
  intros H Hx. destruct (is_bound e x) eqn:E; auto.
  apply H in E. congruence.
Qed.

(** What a statement raises is the [NameError] of a name that was not bound
    when the statement started. *)
Lemma exec_raise s :
  forall e err, exec s e = Raise err ->
  exists x, err = NameError x /\ is_bound e x = false.
Proof.
  induction s as [names|f globals|targets reads|reads|reads targets body IH]
    using stmt_nested_ind; intros e err Hexec; simpl in *; try discriminate.
  - apply bind_result_raise in Hexec as [H|(_ & _ & H)]; [|discriminate].
    now apply read_names_raise in H.
  - apply bind_result_raise in Hexec as [H|(_ & _ & H)]; [|discriminate].
    now apply read_names_raise in H.
  - apply bind_result_raise in Hexec as [H|(_ & _ & Hexec)];
      [now apply read_names_raise in H|].
    assert (Hstart : forall y, is_bound e y = true ->
                               is_bound (bind_names targets e) y = true)
      by (intros y Hy; rewrite is_bound_bind_names, Hy; apply orb_true_r).
    revert Hexec Hstart. generalize (bind_names targets e).
    induction IH as [|s body Hs _ IHbody]; intros e0 Hexec Hstart; [discriminate|].
    apply bind_result_raise in Hexec as [H|(e1 & H1 & Hexec)].
    + apply Hs in H as (x & -> & Hx). exists x. split; auto.
      now apply (unbound_before e e0).
    + apply (IHbody e1); auto.
      intros y Hy. apply (exec_keeps_bound y s e0 e1); auto.
Qed.

Lemma exec_cell_raise c :
  forall e err, exec_cell c e = Raise err ->
  exists x, err = NameError x /\ is_bound e x = false.
Proof.
  induction c as [|s c IH]; intros e err Hexec; simpl in *; [discriminate|].
  apply bind_result_raise in Hexec as [H|(e1 & H1 & Hexec)].
  - now apply exec_raise in H.
  - apply IH in Hexec as (x & -> & Hx). exists x. split; auto.
    apply (unbound_before e e1); auto.
    intros y Hy. now apply (exec_keeps_bound y s e e1).
Qed.

Lemma exec_reads_unbound s e x :
  In x (reads_of s) -> is_bound e x = false -> exists err, exec s e = Raise err.
Proof.
  intros Hin Hx.
  destruct s as [names|f globals|targets reads|reads|reads targets body];
    simpl in Hin; try tauto;
    destruct (read_names_unbound e reads x Hin Hx) as [err Herr];
    exists err; simpl; now rewrite Herr.
Qed.

Lemma exec_cell_reads_unbound c :
  forall e s x, In s c -> In x (reads_of s) ->
  ~ In x (flat_map targets_of c) -> is_bound e x = false ->
  exists err, exec_cell c e = Raise err.
Proof.
  induction c as [|s0 c IH]; intros e s x Hs Hin Hnot Hx; simpl in *; [tauto|].
  destruct (exec s0 e) as [e1|err] eqn:H0; simpl; [|eauto].
  destruct Hs as [->|Hs].
  - destruct (exec_reads_unbound s e x Hin Hx) as [err Herr]. congruence.
  - apply (IH e1 s x); auto.
    + intros H. apply Hnot, in_or_app. now right.
    + apply (exec_keeps_unbound x s0 e e1); auto.
      intros H. apply Hnot, in_or_app. now left.
Qed.

(** [X13] A run of cells in which a statement reads a name that no statement
    binds, and that was not bound before, never finishes: it stops with a
    [NameError]. *)
Theorem X13_unbound_read_stops_run x cells :
  forall e k c s,
  In (k, c) cells -> In s c -> In x (reads_of s) ->
  ~ In x (flat_map targets_of (flat_map snd cells)) ->
  is_bound e x = false ->
  exists k' y e0, run_cells cells e = Stopped k' (NameError y) e0.
Proof.
  induction cells as [|[k1 c1] cells IH]; intros e k c s Hc Hs Hin Hnot Hx;
    simpl in *; [tauto|].
  rewrite flat_map_app in Hnot.
  destruct (exec_cell c1 e) as [e1|err] eqn:H1.
  - destruct Hc as [Heq|Hc].
    + injection Heq as -> ->.
      destruct (exec_cell_reads_unbound c e s x Hs Hin) as [err Herr]; auto.
      * intros H. apply Hnot, in_or_app. now left.
      * congruence.
    + apply (IH e1 k c s); auto.
      * intros H. apply Hnot, in_or_app. now right.
      * apply (exec_cell_keeps_unbound x c1 e e1); auto.
        intros H. apply Hnot, in_or_app. now left.
  - destruct (exec_cell_raise c1 e err H1) as (y & -> & _). eauto.
Qed.

Lemma X13_witness :
  exists k' y e0, run_cells notebook builtins = Stopped k' (NameError y) e0.
Proof.
  apply (X13_unbound_read_stops_run "noisy_counts"%string notebook builtins 18%nat plot_cell
           (Expr ["plot_histogram"; "noisy_counts"; "mitigated_counts"]%string)).
  - do 17 right. left. reflexivity.
  - right. left. reflexivity.
  - right. left. reflexivity.
  - vm_compute. intuition discriminate.
  - reflexivity.
Defined.

(** ** The calibration matrix of a bit-flip noise model *)

(** Equal matrices, entry by entry. *)
Ltac entrywise tac :=
  repeat match goal with
         | |- @eq Qc _ _ => tac
         | |- cons _ _ = cons _ _ => f_equal
         end.

Lemma expected_calibration_get_noise p :
  expected_calibration (get_noise p) = Some (bit_flip_matrix p).
Proof.
  unfold expected_calibration, calibration_entry, key_bits, calibration_circuit.
  cbn [outcome_labels map app String.get Ascii.eqb Bool.eqb andb all_some option_map
       run_x fold_left apply_x outcome_prob xorb negb].
  unfold flip_prob, get_noise, bit_flip_matrix.
  cbn [filter fst snd map negb vsum fold_right].
  f_equal. entrywise ltac:(ring).
Qed.

Lemma bit_flip_square p : is_square 4 (bit_flip_matrix p).
Proof. split; [reflexivity | repeat constructor]. Qed.

Lemma bit_flip_column_stochastic p : column_stochastic 4 (bit_flip_matrix p).
Proof.
  intros j Hj. destruct j as [|[|[|[|j]]]]; try lia;
    unfold bit_flip_matrix, col; cbn [map nth vsum fold_right]; ring.
Qed.

Lemma bit_flip_entries p i j :
  0 <= p -> p <= 1 -> (i < 4)%nat -> (j < 4)%nat ->
  0 <= entry (bit_flip_matrix p) i j /\ entry (bit_flip_matrix p) i j <= 1.
Proof.
  intros H0 H1 Hi Hj.
  assert (Hq : 0 <= 1 - p /\ 1 - p <= 1) by (split; qc_lra).
  destruct Hq as [Hq0 Hq1]. set (q := 1 - p) in *. clearbody q.
  destruct i as [|[|[|[|i]]]]; try lia;
    destruct j as [|[|[|[|j]]]]; try lia;
    unfold entry, bit_flip_matrix; cbn [nth]; split; qc_nra.
Qed.

Lemma bit_flip_zero : bit_flip_matrix 0 = identity 4.
Proof. apply matrix_eqb_eq. vm_compute. reflexivity. Qed.

(** [X14] The calibration matrix that the loop of [In [4]] samples under
    [get_noise(p)]: a 4 by 4 matrix whose columns sum to 1 for every [p];
    its entries are probabilities when [p] is one; without noise it is the
    identity, so every state of the loop is read back as itself. *)
Theorem X14_get_noise_calibration p :
  exists C, expected_calibration (get_noise p) = Some C /\
    is_square 4 C /\ column_stochastic 4 C /\
    (0 <= p -> p <= 1 ->
     forall i j, (i < 4)%nat -> (j < 4)%nat -> 0 <= entry C i j /\ entry C i j <= 1) /\
    (p = 0 -> C = identity 4).
Proof.
  exists (bit_flip_matrix p). split; [apply expected_calibration_get_noise|].
  split; [apply bit_flip_square|]. split; [apply bit_flip_column_stochastic|]. split.
  - intros H0 H1 i j Hi Hj. now apply bit_flip_entries.
  - intros ->. apply bit_flip_zero.
Qed.

Lemma quarter_margin p :
  0 <= p -> p <= Q2Qc (1 # 4) ->
  Q2Qc (1 # 8) <=
  two * Qcabs ((1 - p) * (1 - p)) -
  (Qcabs ((1 - p) * (1 - p)) + (Qcabs (p * (1 - p)) + (Qcabs (p * (1 - p)) + Qcabs (p * p)))).
Proof.
  intros H0 H1.
  assert (Hq : 0 <= 1 - p) by qc_lra.
  rewrite !Qcabs_Qcmult, (Qcabs_pos p H0), (Qcabs_pos (1 - p) Hq).
  qc_nra.
Qed.

(** [X17] For a flip probability of at most 1/4, the noise levels 0.01 and
    0.1 of [In [3]] and [In [14]] among them, the calibration matrix of
    [get_noise(p)] is diagonally dominant with margin 1/8, and [la.inv] does
    not raise on it. *)
Theorem X17_get_noise_dominant p :
  0 <= p -> p <= Q2Qc (1 # 4) ->
  exists C, expected_calibration (get_noise p) = Some C /\
    dominant_by (Q2Qc (1 # 8)) 4 C /\
    exists N, la_inv C = Ok N.
Proof.
  intros H0 H1. exists (bit_flip_matrix p).
  split; [apply expected_calibration_get_noise|].
  assert (Hdom : dominant_by (Q2Qc (1 # 8)) 4 (bit_flip_matrix p)).
  { left. intros i Hi. pose proof (quarter_margin p H0 H1) as Hm.
    destruct i as [|[|[|[|i]]]]; try lia;
      unfold row_margin, entry, bit_flip_matrix; cbn [nth map vsum fold_right];
      qc_lra. }
  split; [exact Hdom|].
  apply (la_inv_regular 4); [lia | apply bit_flip_square|].
  intros v Hv Hz. apply (dominant_regular 4 (bit_flip_matrix p) (Q2Qc (1 # 8))); auto.
  - apply bit_flip_square.
  - apply Qc_ltb_true. vm_compute. reflexivity.
Qed.

Lemma X17_witness :
  exists C, expected_calibration (get_noise (dec4 1000)) = Some C /\
    dominant_by (Q2Qc (1 # 8)) 4 C /\
    exists N, la_inv C = Ok N.
Proof.
  apply (X17_get_noise_dominant (dec4 1000)).
  - apply Qc_leb_true. vm_compute. reflexivity.
  - apply Qc_leb_true. vm_compute. reflexivity.
Defined.
